(** * The evaluator context of libexpr (src/libexpr/eval.hh)

    A shallow embedding of the deterministic Record/Playback dispatcher
    of [EvalState] (the templates [recordPrimOp], [playbackPrimOp],
    [transformPrimOp], [addImpurePrimOp], [unsupportedPrimOp] and
    [addUnsupportedImpurePrimOp]), together with models of the two member
    functions the header only declares ([forceValue], [findFile]).

    C++ code that mutates the [EvalState] it receives by reference is
    written in state-passing style: a computation takes the state and
    returns an outcome (a value or a thrown error) with the state as it is
    at that point.  A [throw] does not roll anything back. *)

From stdpp Require Import gmap strings list.

Local Open Scope Z_scope.


(** ** Data model *)

(** [typedef enum { Normal, Record, Playback, RecordAndPlayback }].
    [Record] is a reserved word here, hence the underscore. *)
Inductive DeterministicEvaluationMode :=
  | Normal
  | Record_
  | Playback
  | RecordAndPlayback.

#[global] Instance DeterministicEvaluationMode_eq_dec :
  EqDecision DeterministicEvaluationMode.
Proof. solve_decision. Defined.

(** [Value *], [Env *] and [Expr *]: addresses in the collected heap. *)
Abbreviation ValuePtr := positive.
Abbreviation EnvPtr := positive.
Abbreviation ExprPtr := positive.

(** [typedef string Path] and [Symbol] (an interned string). *)
Abbreviation Path := string.
Abbreviation Symbol := string.

(** [typedef list<std::pair<string, Path> > SearchPath]. *)
Abbreviation SearchPath := (list (string * string)).

(** Modelled from the spec: value.hh is not among the sources; the tagged
    variant is the one of the data model (section 3): thunk, blackhole,
    the scalar tags, string with its provenance set, path, list, attribute
    set, lambda, primop and partial application.  A float is kept as its
    bit pattern; no arithmetic on it is modelled. *)
Inductive Value :=
  | tThunk (env : EnvPtr) (expr : ExprPtr)
  | tBlackhole
  | tInt (n : Z)
  | tFloat (bits : Z)
  | tBool (b : bool)
  | tNull
  | tString (s : string) (context : gset string)
  | tPath (p : Path)
  | tList (elems : list ValuePtr)
  | tAttrs (attrs : gmap string ValuePtr)
  | tLambda (env : EnvPtr) (body : ExprPtr)
  | tPrimOp (name : Symbol)
  | tPartialApplication (callee : ValuePtr) (args : list ValuePtr).

(** Modelled from the spec: the exception classes are declared outside
    the sources.  [EvalError] with its message is the one the header
    throws; the other two are the kinds that the error taxonomy (section
    7) names for re-entering a blackhole and for a search path lookup
    that finds nothing. *)
Inductive Error :=
  | EvalError (msg : string)
  | InfiniteRecursionError
  | FileNotFoundError (path : string) (attempted : SearchPath).

(** The part of [class EvalState] that the modelled functions read or
    write: [evalMode], [recording] (a [std::map] from
    [std::pair<string, std::list<string>>] to [Value]), [searchPath], and
    the value cells of the heap that [Value &] and [Value *] refer to. *)
Record EvalState := mkEvalState {
  evalMode : DeterministicEvaluationMode;
  recording : gmap (string * list string) Value;
  searchPath : SearchPath;
  cells : gmap ValuePtr Value;
}.

Definition setRecording (f : gmap (string * list string) Value ->
                             gmap (string * list string) Value)
    (st : EvalState) : EvalState :=
  {| evalMode := evalMode st;
     recording := f (recording st);
     searchPath := searchPath st;
     cells := cells st |}.

Definition setCell (v : ValuePtr) (x : Value) (st : EvalState) : EvalState :=
  {| evalMode := evalMode st;
     recording := recording st;
     searchPath := searchPath st;
     cells := <[v := x]> (cells st) |}.

(** ** The evaluation monad: state passing with exceptions *)

Inductive Outcome (A : Type) :=
  | Ok (a : A)
  | Throw (e : Error).
Arguments Ok {A} a.
Arguments Throw {A} e.

Definition Eval (A : Type) : Type := EvalState -> Outcome A * EvalState.

#[global] Instance Eval_ret : MRet Eval :=
  fun A a st => (Ok a, st).

#[global] Instance Eval_bind : MBind Eval :=
  fun A B k c st =>
    match c st with
    | (Ok a, st') => k a st'
    | (Throw e, st') => (Throw e, st')
    end.

Definition throw {A : Type} (e : Error) : Eval A :=
  fun st => (Throw e, st).

Definition getState : Eval EvalState :=
  fun st => (Ok st, st).

Definition modifyState (f : EvalState -> EvalState) : Eval unit :=
  fun st => (Ok tt, f st).

(** [isInPlaybackMode()] *)
Definition isInPlaybackMode (st : EvalState) : bool :=
  bool_decide (evalMode st = Playback) || bool_decide (evalMode st = RecordAndPlayback).

(** ** C strings *)

(** The terminator of a C string. *)
Definition NUL : Ascii.ascii := Ascii.zero.

(** [std::string::c_str()] read back as a text: a [const char *] ends at
    the first NUL character, so the characters of the [std::string] from
    its first NUL on are not part of it. *)
Fixpoint c_str (s : string) : string :=
  match s with
  | EmptyString => EmptyString
  | String c s' => if Ascii.eqb c NUL then EmptyString else String c (c_str s')
  end.

(** The text holds no NUL character, as every text held in a
    [const char *] does. *)
Fixpoint noNUL (s : string) : bool :=
  match s with
  | EmptyString => true
  | String c s' => negb (Ascii.eqb c NUL) && noNUL s'
  end.

(** ** Primop dispatch *)

Section Dispatch.

(** [Pos] comes from nixexpr.hh and is printed with [operator <<];
    [parameterValue] is the private member that stringifies one argument
    (its body is in eval.cc).  It receives the cell by reference, may
    force it, and may throw. *)
Context {Pos : Type}.
Variable showPos : Pos -> string.
Variable parameterValue : ValuePtr -> Eval string.

(** The function pointer type [PrimOpFun], taking [EvalState & state],
    [const Pos & pos], [Value * * args] and [Value & v].  [args] is a C
    array, indexed without a bounds check; the result written through
    [v] is the returned value.  An [unsigned int] index or arity is a
    natural number: the loop counter stays below the arity and never
    wraps. *)
Definition PrimOpFun : Type := Pos -> (nat -> ValuePtr) -> Eval Value.

(** [struct PrimOp { PrimOpFun fun; unsigned int arity; Symbol name; }] *)
Record PrimOp := mkPrimOp {
  fn : PrimOpFun;
  arity : nat;
  name : Symbol;
}.

(** The function pointer type [UsedArguments], from an
    [unsigned int argumentIndex] to [bool]. *)
Definition UsedArguments : Type := nat -> bool.

Definition constTrue (arg : nat) : bool := true.

(** [template<int argumentPos> onlyPos(unsigned int arg)]: the
    comparison [arg == argumentPos] converts the [int] to
    [unsigned int]. *)
Definition onlyPos (argumentPos : Z) (arg : nat) : bool :=
  Z.of_nat arg =? argumentPos `mod` 2 ^ 32.

(** The loop that opens both wrappers:
    [for (i = 0; i < arity; i++) if (useArgument(i))
       argList.push_back(state.parameterValue(args[i] dereferenced))].
    [todo] is the list of indices still to visit. *)
Fixpoint argListLoop (useArgument : UsedArguments) (args : nat -> ValuePtr)
    (todo : list nat) (argList : list string) : Eval (list string) :=
  match todo with
  | [] => mret argList
  | i :: todo' =>
      if useArgument i
      then s ← parameterValue (args i);
           argListLoop useArgument args todo' (argList ++ [s])
      else argListLoop useArgument args todo' argList
  end.

Definition collectArgList (arity : nat) (useArgument : UsedArguments)
    (args : nat -> ValuePtr) : Eval (list string) :=
  argListLoop useArgument args (seq 0 arity) [].

(** [recordPrimOp<name, arity, primOp, useArgument>] *)
Definition recordPrimOp (name : string) (arity : nat) (primOp : PrimOpFun)
    (useArgument : UsedArguments) : PrimOpFun :=
  fun pos args =>
    argList ← collectArgList arity useArgument args;
    v ← primOp pos args;
    modifyState (setRecording (insert (name, argList) v));;
    mret v.

(** The [std::string errorMsg] built in the miss branch of
    [playbackPrimOp]: the name and an opening parenthesis, then each
    element of [argList] followed by a comma and a space, then a closing
    parenthesis. *)
Definition playbackErrorMsg (name : string) (argList : list string) : string :=
  fold_left (fun errorMsg arg => errorMsg +:+ (arg +:+ ", ")) argList
            (("wanted to call " +:+ name) +:+ "(")
  +:+ ")".

(** [playbackPrimOp<name, arity, primOp, useArgument>].  The miss branch
    throws [EvalError(errorMsg.c_str())]: the exception carries the
    message up to its first NUL character. *)
Definition playbackPrimOp (name : string) (arity : nat) (primOp : PrimOpFun)
    (useArgument : UsedArguments) : PrimOpFun :=
  fun pos args =>
    argList ← collectArgList arity useArgument args;
    state ← getState;
    match recording state !! (name, argList) with
    | None => throw (EvalError (c_str (playbackErrorMsg name argList)))
    | Some result => mret result
    end.

(** [transformPrimOp<name, arity, primOp, useArguments>()]; [None] is
    the [default: abort()] branch. *)
Definition transformPrimOp (st : EvalState) (name : string) (arity : nat)
    (primOp : PrimOpFun) (useArguments : UsedArguments) : option PrimOpFun :=
  match evalMode st with
  | Record_ => Some (recordPrimOp name arity primOp useArguments)
  | Playback => Some (playbackPrimOp name arity primOp useArguments)
  | Normal => Some primOp
  | RecordAndPlayback => None
  end.

(** Modelled from the spec: [addPrimOp] is only declared in the header;
    it registers the descriptor (name, arity, function reference) in the
    base environment, here a map from names to descriptors. *)
Definition addPrimOp (name : string) (arity : nat) (primOp : PrimOpFun)
    (baseEnv : gmap string PrimOp) : gmap string PrimOp :=
  <[name := mkPrimOp primOp arity name]> baseEnv.

(** [addImpurePrimOp<name, arity, primOp, useArguments>()]; [None] when
    [transformPrimOp] aborted the process. *)
Definition addImpurePrimOp (st : EvalState) (name : string) (arity : nat)
    (primOp : PrimOpFun) (useArguments : UsedArguments)
    (baseEnv : gmap string PrimOp) : option (gmap string PrimOp) :=
  match transformPrimOp st name arity primOp useArguments with
  | Some f => Some (addPrimOp name arity f baseEnv)
  | None => None
  end.

(** [unsupportedPrimOp<name>] *)
Definition unsupportedMsg (name : string) (pos : Pos) : string :=
  "primop '" +:+ name +:+
  "' is not (yet) supported in Record/Playback mode (used at '" +:+
  showPos pos +:+ "')".

Definition unsupportedPrimOp (name : string) : PrimOpFun :=
  fun pos args => throw (EvalError (unsupportedMsg name pos)).

(** [addUnsupportedImpurePrimOp<name>(arity, primOp)] *)
Definition addUnsupportedImpurePrimOp (st : EvalState) (name : string)
    (arity : nat) (primOp : PrimOpFun)
    (baseEnv : gmap string PrimOp) : gmap string PrimOp :=
  if bool_decide (evalMode st = Record_) || bool_decide (evalMode st = Playback)
  then addPrimOp name arity (unsupportedPrimOp name) baseEnv
  else addPrimOp name arity primOp baseEnv.

End Dispatch.

(** ** Forcing *)

Section Forcing.

Context {Pos : Type}.

(** The collaborators that forcing calls into: the evaluation of an
    expression in an environment ([Expr::eval], nixexpr.hh), the
    application of a function to its accumulated arguments
    ([callFunction]), and the test that a partial application has all
    the arguments its callee takes. *)
Record Evaluator := mkEvaluator {
  evalExpr : ExprPtr -> EnvPtr -> Eval Value;
  callFunction : ValuePtr -> list ValuePtr -> Pos -> Eval Value;
  aritySatisfied : ValuePtr -> list ValuePtr -> EvalState -> bool;
}.

(** The tags that forcing leaves alone. *)
Definition isConcrete (x : Value) : bool :=
  match x with
  | tThunk _ _ | tBlackhole | tPartialApplication _ _ => false
  | _ => true
  end.

(** Modelled from the spec: the body of [forceValue] is in
    eval-inline.hh, which is not among the sources; the header only
    declares it.  This is the state machine of section 4.1: a concrete
    tag is a no-op; a thunk is marked blackhole, its expression is
    evaluated in its environment and the cell is overwritten with the
    result, and if the evaluation throws the cell stays a blackhole; a
    blackhole is the infinite-recursion error; a partial application
    with its arity satisfied is called and overwritten with the
    result. *)
Definition forceValue (E : Evaluator) (v : ValuePtr) (pos : Pos) : Eval unit :=
  state ← getState;
  match cells state !! v with
  | Some (tThunk env expr) =>
      modifyState (setCell v tBlackhole);;
      r ← evalExpr E expr env;
      modifyState (setCell v r)
  | Some tBlackhole => throw InfiniteRecursionError
  | Some (tPartialApplication callee args) =>
      if aritySatisfied E callee args state
      then r ← callFunction E callee args pos;
           modifyState (setCell v r)
      else mret tt
  | _ => mret tt
  end.

(** [n] forces of the same cell in a row; the result lists the outcome
    of each. *)
Fixpoint forceRepeatedly (E : Evaluator) (v : ValuePtr) (pos : Pos) (n : nat)
    (st : EvalState) : list (Outcome unit) * EvalState :=
  match n with
  | O => ([], st)
  | S n' =>
      let '(o, st') := forceValue E v pos st in
      let '(os, st'') := forceRepeatedly E v pos n' st' in
      (o :: os, st'')
  end.

End Forcing.

(** ** Search path lookup *)

Section SearchPathLookup.

Context {Pos : Type}.

(** The file system as seen during one lookup, and the location that an
    entry (prefix, target) gives for a requested name, if its prefix
    applies to it. *)
Variable pathExists : Path -> bool.
Variable resolve : string -> Path -> string -> option Path.
Variable noPos : Pos.

(** Modelled from the spec: the resolved location of the entry exists on
    disk. *)
Definition entryExists (entry : string * Path) (path : string) : bool :=
  match resolve entry.1 entry.2 path with
  | Some location => pathExists location
  | None => false
  end.

(** Modelled from the spec: the walk over the entries in list order,
    stopping at the first that exists. *)
Fixpoint findFileLoop (searchPath : SearchPath) (path : string) : option Path :=
  match searchPath with
  | [] => None
  | entry :: rest =>
      if entryExists entry path then Some entry.2
      else findFileLoop rest path
  end.

(** Modelled from the spec: the body of [findFile] is in the parser,
    which is not among the sources; the header only declares the two
    overloads.  Section 4.5: the target of the first entry whose
    resolved location exists on disk; exhausting the list is a file not
    found error naming the attempted search path. *)
Definition findFile (searchPath : SearchPath) (path : string) (pos : Pos)
    : Eval Path :=
  match findFileLoop searchPath path with
  | Some target => mret target
  | None => throw (FileNotFoundError path searchPath)
  end.

(** The overload [findFile(const string & path)] searches the path of
    the evaluator. *)
Definition findFileInState (path : string) : Eval Path :=
  state ← getState;
  findFile (searchPath state) path noPos.

End SearchPathLookup.

(** ** Definitions used to state the properties *)

(** What section 4.4 of the design describes for RecordAndPlayback, in its
    words: try the Playback path first; on a miss fall back to the Record
    path (invoke and store).  The header has no such wrapper; this
    definition only serves to compare with what [transformPrimOp] does. *)
Definition playbackThenRecord {Pos : Type} (parameterValue : ValuePtr -> Eval string)
    (name : string) (arity : nat) (primOp : PrimOpFun (Pos := Pos))
    (useArgument : UsedArguments) : PrimOpFun :=
  fun pos args =>
    argList ← collectArgList parameterValue arity useArgument args;
    state ← getState;
    match recording state !! (name, argList) with
    | Some result => mret result
    | None =>
        v ← primOp pos args;
        modifyState (setRecording (insert (name, argList) v));;
        mret v
    end.

(** The masked arguments stringified one after the other, in order. *)
Fixpoint stringifyEach (parameterValue : ValuePtr -> Eval string)
    (ps : list ValuePtr) : Eval (list string) :=
  match ps with
  | [] => mret []
  | p :: ps' =>
      s ← parameterValue p;
      rest ← stringifyEach parameterValue ps';
      mret (s :: rest)
  end.

(** [s] occurs in [t]. *)
Definition occursIn (s t : string) : Prop :=
  exists before after, t = before +:+ (s +:+ after).

(** The arguments of the miss message, each followed by a comma and a
    space. *)
Definition commaSeparated (argList : list string) : string :=
  foldr (fun arg rest => arg +:+ (", " +:+ rest)) "" argList.

(** ** Fixtures: a small evaluator context to run the definitions on *)

Module Fixture.

(** Positions are shown as they are. *)
Definition showPos (pos : string) : string := pos.

(** Stringifies a string cell; anything else cannot be stringified. *)
Definition parameterValue (p : ValuePtr) : Eval string :=
  fun st =>
    match cells st !! p with
    | Some (tString s _) => (Ok s, st)
    | _ => (Throw (EvalError "cannot stringify"), st)
    end.

(** An impure implementation: it returns the number held in cell 9 and
    increments that cell, so that each call is observable and successive
    calls return different values. *)
Definition counter : ValuePtr := 9%positive.

Definition tick : PrimOpFun (Pos := string) :=
  fun pos args st =>
    match cells st !! counter with
    | Some (tInt n) => (Ok (tInt n), setCell counter (tInt (n + 1)) st)
    | _ => (Ok (tInt 0), setCell counter (tInt 1) st)
    end.

(** An implementation that has its effect and then throws. *)
Definition tickThenFail : PrimOpFun (Pos := string) :=
  fun pos args st =>
    match tick pos args st with
    | (_, st') => (Throw (EvalError "implementation failed"), st')
    end.

(** Arguments: cell 1 holds ["HOME"], cell 2 holds ["a"], cell 3
    holds ["b"]. *)
Definition heap0 : gmap ValuePtr Value :=
  <[1%positive := tString "HOME" ∅]>
    (<[2%positive := tString "a" ∅]>
       (<[3%positive := tString "b" ∅]>
          (<[counter := tInt 0]> ∅))).

Definition state0 (mode : DeterministicEvaluationMode) : EvalState :=
  mkEvalState mode ∅ [] heap0.

Definition argsA (i : nat) : ValuePtr :=
  match i with O => 1%positive | _ => 2%positive end.

Definition argsB (i : nat) : ValuePtr :=
  match i with O => 1%positive | _ => 3%positive end.

(** The states that two recorded calls of [tick] go through. *)
Definition key : string * list string := ("getEnv", ["HOME"]).

Definition afterFirst : EvalState :=
  setRecording (insert key (tInt 0))
    (setCell counter (tInt 1) (state0 Record_)).

Definition afterSecond : EvalState :=
  setRecording (insert key (tInt 1)) (setCell counter (tInt 2) afterFirst).

(** A table recorded earlier, for playback. *)
Definition replayState : EvalState :=
  mkEvalState Playback {[ key := tString "/home/alice" ∅ ]} [] heap0.

(** An evaluator: expression 1 counts its evaluation in the counter
    cell and yields 42; every other expression counts and fails. *)
Definition evaluator : Evaluator (Pos := string) :=
  {| evalExpr := fun expr env st =>
       match tick "" argsA st with
       | (_, st') =>
           if bool_decide (expr = 1%positive) then (Ok (tInt 42), st')
           else (Throw (EvalError "assertion failed"), st')
       end;
     callFunction := fun callee args pos => throw (EvalError "not a function");
     aritySatisfied := fun callee args st => false |}.

(** An evaluator for which every expression evaluates. *)
Definition lenient : Evaluator (Pos := string) :=
  {| evalExpr := fun expr env st => (Ok (tInt 7), st);
     callFunction := fun callee args pos => mret tNull;
     aritySatisfied := fun callee args st => true |}.

(** Cell 5 is a thunk of expression 1, cell 6 a thunk of expression 2. *)
Definition thunks : EvalState :=
  setCell 5%positive (tThunk 1%positive 1%positive)
    (setCell 6%positive (tThunk 1%positive 2%positive) (state0 Normal)).

(** A file system with three files, and entries that apply to every name
    (empty prefix) or to the names that start with their prefix. *)
Definition pathExists (p : Path) : bool :=
  bool_decide (p ∈ ["/a/default.nix"; "/b/default.nix"; "/b/lib.nix"]).

Definition resolve (prefix : string) (target : Path) (path : string)
    : option Path :=
  if String.prefix prefix path then Some (target +:+ "/" +:+ path) else None.

Definition twoDirs : SearchPath := [("", "/a"); ("", "/b")].

(** The Record wrapper of [tick] under the name getEnv, keyed by its first
    argument only. *)
Definition recordTick : PrimOpFun (Pos := string) :=
  recordPrimOp parameterValue "getEnv" 2 tick (onlyPos 0).

(** The initial state after one run of [tick]. *)
Definition ticked (mode : DeterministicEvaluationMode) : EvalState :=
  setCell counter (tInt 1) (state0 mode).

(** [thunks] after cell 5 was forced, and after the evaluation of cell 6
    failed. *)
Definition forced : EvalState :=
  setCell 5%positive (tInt 42)
    (setCell counter (tInt 1) (setCell 5%positive tBlackhole thunks)).

Definition failed : EvalState :=
  setCell counter (tInt 1) (setCell 6%positive tBlackhole thunks).




End Fixture.

(** ** A session of calls *)

Section Session.

Context {Pos : Type}.
Variable parameterValue : ValuePtr -> Eval string.

(** One invocation of an impure built-in: the template arguments of its
    wrapper (name, arity, implementation, mask) and the position and
    argument array of the call. *)
Record Call := mkCall {
  callName : string;
  callArity : nat;
  callPrimOp : PrimOpFun (Pos := Pos);
  callMask : UsedArguments;
  callPos : Pos;
  callArgs : nat -> ValuePtr;
}.

(** The calls of a session made one after the other through
    [recordPrimOp]; the first exception ends the session. *)
Fixpoint recordAll (calls : list Call) : Eval (list Value) :=
  match calls with
  | [] => mret []
  | c :: calls' =>
      v ← recordPrimOp parameterValue (callName c) (callArity c) (callPrimOp c)
            (callMask c) (callPos c) (callArgs c);
      vs ← recordAll calls';
      mret (v :: vs)
  end.

End Session.

(** The sum of the lengths of the pieces of the miss message that come
    from the arguments: each argument and its two separator characters. *)
Definition argumentsLength (argList : list string) : nat :=
  foldr (fun arg n => (String.length arg + 2 + n)%nat) 0%nat argList.

Module SessionFixture.

(** The strings that the argument cells of [Fixture.heap0] hold. *)
Definition str (p : ValuePtr) : string :=
  match p with
  | 1%positive => "HOME"
  | 2%positive => "a"
  | 3%positive => "b"
  | _ => ""
  end.

Definition isArgument (p : ValuePtr) : Prop :=
  p = 1%positive \/ p = 2%positive \/ p = 3%positive.

(** The argument cells hold their strings. *)
Definition argumentsIntact (st : EvalState) : Prop :=
  forall p, isArgument p -> cells st !! p = Some (tString (str p) ∅).

(** Three calls of [Fixture.tick]: getEnv keyed by its first argument,
    twice, and readFile keyed by both arguments. *)
Definition session : list (Call (Pos := string)) :=
  [ mkCall "getEnv" 2 Fixture.tick (onlyPos 0) "p" Fixture.argsA;
    mkCall "readFile" 2 Fixture.tick constTrue "q" Fixture.argsB;
    mkCall "getEnv" 2 Fixture.tick (onlyPos 0) "r" Fixture.argsB ].

(** An argument array whose second entry is the cell of the counter,
    which holds a number and does not stringify. *)
Definition argsBad (i : nat) : ValuePtr :=
  match i with
  | O => 1%positive
  | 1%nat => Fixture.counter
  | _ => 2%positive
  end.

End SessionFixture.

(** ** Facts about the monad and about strings *)

Lemma bind_Ok {A B : Type} (c : Eval A) (k : A -> Eval B) st a st' :
  c st = (Ok a, st') -> (c ≫= k) st = k a st'.
Proof. intros H. unfold mbind, Eval_bind. by rewrite H. Qed.

Lemma bind_Throw {A B : Type} (c : Eval A) (k : A -> Eval B) st e st' :
  c st = (Throw e, st') -> (c ≫= k) st = (Throw e, st').
Proof. intros H. unfold mbind, Eval_bind. by rewrite H. Qed.

Lemma append_assoc (a b c : string) : (a +:+ b) +:+ c = a +:+ (b +:+ c).
Proof.
  induction a as [|x a IH]; [reflexivity |].
  change (String x ((a +:+ b) +:+ c) = String x (a +:+ (b +:+ c))).
  by rewrite IH.
Qed.

Lemma append_empty_r (a : string) : a +:+ "" = a.
Proof.
  induction a as [|x a IH]; [reflexivity |].
  change (String x (a +:+ "") = String x a). by rewrite IH.
Qed.

Lemma fold_left_append (argList : list string) (init : string) :
  fold_left (fun errorMsg arg => errorMsg +:+ (arg +:+ ", ")) argList init
  = init +:+ commaSeparated argList.
Proof.
  revert init. induction argList as [|arg argList IH]; intros init; simpl.
  - by rewrite append_empty_r.
  - rewrite IH. by rewrite !append_assoc.
Qed.

Lemma playbackErrorMsg_eq (name : string) (argList : list string) :
  playbackErrorMsg name argList
  = "wanted to call " +:+ (name +:+ ("(" +:+ (commaSeparated argList +:+ ")"))).
Proof.
  unfold playbackErrorMsg. rewrite fold_left_append. by rewrite !append_assoc.
Qed.



Lemma noNUL_append (a b : string) : noNUL (a +:+ b) = noNUL a && noNUL b.
Proof.
  induction a as [|x a IH]; [reflexivity |].
  change (negb (Ascii.eqb x NUL) && noNUL (a +:+ b)
          = negb (Ascii.eqb x NUL) && noNUL a && noNUL b).
  rewrite IH. by destruct (Ascii.eqb x NUL).
Qed.

Lemma c_str_noNUL (s : string) : noNUL s = true -> c_str s = s.
Proof.
  induction s as [|x s IH]; [done |]. simpl.
  destruct (Ascii.eqb x NUL); simpl; [done |]. intros Hs. by rewrite IH.
Qed.



Lemma c_str_is_noNUL (s : string) : noNUL (c_str s) = true.
Proof.
  induction s as [|x s IH]; [done |]. simpl.
  destruct (Ascii.eqb x NUL) eqn:Hx; simpl; [done |]. by rewrite Hx, IH.
Qed.


Lemma noNUL_commaSeparated (argList : list string) :
  Forall (fun arg => noNUL arg = true) argList ->
  noNUL (commaSeparated argList) = true.
Proof.
  induction 1 as [|arg argList Harg _ IH]; [done |]. simpl.
  by rewrite !noNUL_append, Harg, IH.
Qed.


(** ** The Record and Playback wrappers *)

Section DispatchFacts.

Context {Pos : Type}.
Variable parameterValue : ValuePtr -> Eval string.

Implicit Types (primOp : PrimOpFun (Pos := Pos)) (useArgument : UsedArguments).
Implicit Types (args : nat -> ValuePtr) (st : EvalState).

(** The loop reads only the cells at the positions selected by the
    mask. *)
Lemma argListLoop_masked useArgument args args' todo argList st :
  (forall i, i ∈ todo -> useArgument i = true -> args i = args' i) ->
  argListLoop parameterValue useArgument args todo argList st
  = argListLoop parameterValue useArgument args' todo argList st.
Proof.
  revert argList st.
  induction todo as [|i todo IH]; intros argList st Hagree; [done |].
  simpl. destruct (useArgument i) eqn:Hi.
  - rewrite <- (Hagree i); [| by left | done].
    unfold mbind, Eval_bind.
    destruct (parameterValue (args i) st) as [[s | e] st1]; [| done].
    apply IH. intros j Hj. apply Hagree. by right.
  - apply IH. intros j Hj. apply Hagree. by right.
Qed.

(** The loop stringifies exactly the arguments at the masked positions,
    in increasing order of position, and appends them. *)
Lemma argListLoop_stringifyEach useArgument args todo argList st :
  argListLoop parameterValue useArgument args todo argList st
  = (rest ← stringifyEach parameterValue (args <$> List.filter useArgument todo);
     mret (argList ++ rest)) st.
Proof.
  revert argList st.
  induction todo as [|i todo IH]; intros argList st; simpl.
  - unfold mbind, Eval_bind, mret, Eval_ret. by rewrite app_nil_r.
  - destruct (useArgument i); [| apply IH]. simpl.
    unfold mbind, Eval_bind.
    destruct (parameterValue (args i) st) as [[s | e] st1]; [| done].
    rewrite IH. unfold mbind, Eval_bind, mret, Eval_ret.
    destruct (stringifyEach _ _ st1) as [[rest | e] st2]; [| done].
    by rewrite <- app_assoc.
Qed.

Lemma collectArgList_stringifyEach arity useArgument args st :
  collectArgList parameterValue arity useArgument args st
  = stringifyEach parameterValue
      (args <$> List.filter useArgument (seq 0 arity)) st.
Proof.
  unfold collectArgList. rewrite argListLoop_stringifyEach.
  unfold mbind, Eval_bind, mret, Eval_ret.
  by destruct (stringifyEach _ _ st) as [[rest | e] st2].
Qed.

Lemma collectArgList_masked arity useArgument args args' st :
  (forall i, (i < arity)%nat -> useArgument i = true -> args i = args' i) ->
  collectArgList parameterValue arity useArgument args st
  = collectArgList parameterValue arity useArgument args' st.
Proof.
  intros Hagree. apply argListLoop_masked.
  intros i Hi. apply Hagree. apply elem_of_seq in Hi. lia.
Qed.

(** One call of the Record wrapper, once the key is computed: the
    outcome is that of the implementation, run in the state the key
    computation left, followed by the write when it returned. *)
Lemma recordPrimOp_unfold name arity primOp useArgument pos args st argList st1 :
  collectArgList parameterValue arity useArgument args st = (Ok argList, st1) ->
  recordPrimOp parameterValue name arity primOp useArgument pos args st
  = match primOp pos args st1 with
    | (Ok v, st2) => (Ok v, setRecording (insert (name, argList) v) st2)
    | (Throw e, st2) => (Throw e, st2)
    end.
Proof.
  intros Hkey. unfold recordPrimOp. rewrite (bind_Ok _ _ _ _ _ Hkey).
  unfold mbind, Eval_bind.
  by destruct (primOp pos args st1) as [[v | e] st2].
Qed.

Lemma recordPrimOp_key_failed name arity primOp useArgument pos args st e st1 :
  collectArgList parameterValue arity useArgument args st = (Throw e, st1) ->
  recordPrimOp parameterValue name arity primOp useArgument pos args st
  = (Throw e, st1).
Proof. intros Hkey. unfold recordPrimOp. by rewrite (bind_Throw _ _ _ _ _ Hkey). Qed.

(** One call of the Playback wrapper, once the key is computed. *)
Lemma playbackPrimOp_unfold name arity primOp useArgument pos args st argList st1 :
  collectArgList parameterValue arity useArgument args st = (Ok argList, st1) ->
  playbackPrimOp parameterValue name arity primOp useArgument pos args st
  = match recording st1 !! (name, argList) with
    | Some result => (Ok result, st1)
    | None => (Throw (EvalError (c_str (playbackErrorMsg name argList))), st1)
    end.
Proof.
  intros Hkey. unfold playbackPrimOp. rewrite (bind_Ok _ _ _ _ _ Hkey).
  unfold mbind, Eval_bind, getState.
  by destruct (recording st1 !! (name, argList)).
Qed.

(** The Playback wrapper never refers to the implementation it wraps. *)
Lemma playbackPrimOp_ignores_primOp name arity primOp primOp' useArgument pos args st :
  playbackPrimOp parameterValue name arity primOp useArgument pos args st
  = playbackPrimOp parameterValue name arity primOp' useArgument pos args st.
Proof. reflexivity. Qed.

(** C1.  In Record mode the dispatcher is [recordPrimOp].  Once the key
    (name, stringified masked arguments) is computed, the real
    implementation is run whatever the table holds, also when it already
    has an entry [old] under that key, and its result is written under
    the key, replacing any entry.  For two calls with the same key, one
    after the other, the implementation runs both times and the table
    ends up holding the result of the second call. *)
Theorem recordPrimOp_last_write_wins
    name arity primOp useArgument pos args pos' args'
    st argList st1 v st2 st1' v' st2' :
  let record := recordPrimOp parameterValue name arity primOp useArgument in
  let key := (name, argList) in
  evalMode st = Record_ ->
  collectArgList parameterValue arity useArgument args st = (Ok argList, st1) ->
  primOp pos args st1 = (Ok v, st2) ->
  collectArgList parameterValue arity useArgument args'
    (setRecording (insert key v) st2) = (Ok argList, st1') ->
  primOp pos' args' st1' = (Ok v', st2') ->
  transformPrimOp parameterValue st name arity primOp useArgument = Some record /\
  record pos args st = (Ok v, setRecording (insert key v) st2) /\
  recording (record pos args st).2 !! key = Some v /\
  (record pos args ≫= fun _ => record pos' args') st
    = (Ok v', setRecording (insert key v') st2') /\
  recording ((record pos args ≫= fun _ => record pos' args') st).2 !! key
    = Some v'.
Proof.
  intros record key Hmode Hkey Himpl Hkey' Himpl'.
  assert (Hfirst : record pos args st = (Ok v, setRecording (insert key v) st2)).
  { unfold record. rewrite (recordPrimOp_unfold _ _ _ _ _ _ _ _ _ Hkey).
    by rewrite Himpl. }
  assert (Hboth : (record pos args ≫= fun _ => record pos' args') st
                  = (Ok v', setRecording (insert key v') st2')).
  { rewrite (bind_Ok _ _ _ _ _ Hfirst). unfold record.
    rewrite (recordPrimOp_unfold _ _ _ _ _ _ _ _ _ Hkey').
    by rewrite Himpl'. }
  split; [unfold transformPrimOp; by rewrite Hmode |].
  split; [done |].
  split; [rewrite Hfirst; simpl; apply lookup_insert_eq |].
  split; [done |].
  rewrite Hboth. simpl. apply lookup_insert_eq.
Qed.

(** C2.  In Playback mode the dispatcher is [playbackPrimOp].  When the
    table holds [result] under the computed key, the call returns
    [result] and leaves the state exactly as the key computation left
    it; this holds for every implementation that could have been
    wrapped, so the real implementation is not run and has no effect. *)
Theorem playbackPrimOp_hit
    name arity primOp useArgument pos args st argList st1 result :
  evalMode st = Playback ->
  collectArgList parameterValue arity useArgument args st = (Ok argList, st1) ->
  recording st1 !! (name, argList) = Some result ->
  transformPrimOp parameterValue st name arity primOp useArgument
    = Some (playbackPrimOp parameterValue name arity primOp useArgument) /\
  forall anyPrimOp : @PrimOpFun Pos,
    playbackPrimOp parameterValue name arity anyPrimOp useArgument pos args st
    = (Ok result, st1).
Proof.
  intros Hmode Hkey Hhit. split.
  - unfold transformPrimOp. by rewrite Hmode.
  - intros anyPrimOp.
    rewrite (playbackPrimOp_unfold _ _ _ _ _ _ _ _ _ Hkey). by rewrite Hhit.
Qed.


(** C6.  The list in the key is the masked arguments below the arity,
    stringified in order, and nothing else.  Two calls whose argument
    arrays agree at those positions, and differ anywhere else, compute
    the same key from the same state: the loop gives the same list, the
    Playback wrapper behaves the same on both (it is a function of the
    key alone), and the Record wrapper writes the results of both under
    one and the same key. *)
Theorem replay_key_ignores_unmasked_arguments
    name arity primOp useArgument pos pos' args args' st :
  (forall i, (i < arity)%nat -> useArgument i = true -> args i = args' i) ->
  collectArgList parameterValue arity useArgument args st
    = stringifyEach parameterValue
        (args <$> List.filter useArgument (seq 0 arity)) st /\
  collectArgList parameterValue arity useArgument args st
    = collectArgList parameterValue arity useArgument args' st /\
  playbackPrimOp parameterValue name arity primOp useArgument pos args st
    = playbackPrimOp parameterValue name arity primOp useArgument pos' args' st /\
  (forall argList st1 v st2 v' st2',
    collectArgList parameterValue arity useArgument args st = (Ok argList, st1) ->
    primOp pos args st1 = (Ok v, st2) ->
    primOp pos' args' st1 = (Ok v', st2') ->
    recordPrimOp parameterValue name arity primOp useArgument pos args st
      = (Ok v, setRecording (insert (name, argList) v) st2) /\
    recordPrimOp parameterValue name arity primOp useArgument pos' args' st
      = (Ok v', setRecording (insert (name, argList) v') st2')).
Proof.
  intros Hagree.
  pose proof (collectArgList_masked arity useArgument args args' st Hagree) as Hsame.
  split; [apply collectArgList_stringifyEach |].
  split; [done |]. split.
  - unfold playbackPrimOp, mbind, Eval_bind. by rewrite Hsame.
  - intros argList st1 v st2 v' st2' Hkey Himpl Himpl'. split.
    + rewrite (recordPrimOp_unfold _ _ _ _ _ _ _ _ _ Hkey). by rewrite Himpl.
    + rewrite Hsame in Hkey.
      rewrite (recordPrimOp_unfold _ _ _ _ _ _ _ _ _ Hkey). by rewrite Himpl'.
Qed.

(** C10.  In Record mode, when the real implementation throws, the
    wrapper throws the same error and the state is exactly the one the
    implementation left: the write under the key comes after the call
    and is not reached.  The table is then the one the implementation
    left, and it is the table from before the call whenever the key
    computation and the implementation did not themselves write to
    it. *)
Theorem recordPrimOp_error_leaves_table
    name arity primOp useArgument pos args st argList st1 e st2 :
  let record := recordPrimOp parameterValue name arity primOp useArgument in
  evalMode st = Record_ ->
  collectArgList parameterValue arity useArgument args st = (Ok argList, st1) ->
  primOp pos args st1 = (Throw e, st2) ->
  transformPrimOp parameterValue st name arity primOp useArgument = Some record /\
  record pos args st = (Throw e, st2) /\
  recording (record pos args st).2 = recording st2 /\
  (recording st2 = recording st ->
   recording (record pos args st).2 = recording st /\
   recording (record pos args st).2 !! (name, argList)
     = recording st !! (name, argList)).
Proof.
  intros record Hmode Hkey Himpl.
  assert (Hrun : record pos args st = (Throw e, st2)).
  { unfold record. rewrite (recordPrimOp_unfold _ _ _ _ _ _ _ _ _ Hkey).
    by rewrite Himpl. }
  split; [unfold transformPrimOp; by rewrite Hmode |].
  split; [done |]. rewrite Hrun. simpl.
  split; [done |]. intros ->. done.
Qed.

End DispatchFacts.

Section RegistrationFacts.

Context {Pos : Type}.
Variable showPos : Pos -> string.
Variable parameterValue : ValuePtr -> Eval string.

Implicit Types (primOp : PrimOpFun (Pos := Pos)) (useArgument : UsedArguments).
Implicit Types (st : EvalState) (baseEnv : gmap string (PrimOp (Pos := Pos))).

(** C4, as the header has it.  [transformPrimOp] produces no dispatch
    function exactly in RecordAndPlayback mode: the switch falls into
    its aborting default, [addImpurePrimOp] registers nothing, and there
    is neither a Playback attempt nor a Record fallback.  In the three
    other modes the dispatch function is the Record wrapper, the
    Playback wrapper, or the implementation itself. *)
Theorem transformPrimOp_RecordAndPlayback_aborts
    st name arity primOp useArgument baseEnv :
  (evalMode st = RecordAndPlayback <->
   transformPrimOp parameterValue st name arity primOp useArgument = None) /\
  (evalMode st = RecordAndPlayback ->
   addImpurePrimOp parameterValue st name arity primOp useArgument baseEnv = None) /\
  (evalMode st = Record_ ->
   transformPrimOp parameterValue st name arity primOp useArgument
   = Some (recordPrimOp parameterValue name arity primOp useArgument)) /\
  (evalMode st = Playback ->
   transformPrimOp parameterValue st name arity primOp useArgument
   = Some (playbackPrimOp parameterValue name arity primOp useArgument)) /\
  (evalMode st = Normal ->
   transformPrimOp parameterValue st name arity primOp useArgument = Some primOp).
Proof.
  unfold addImpurePrimOp, transformPrimOp.
  destruct (evalMode st); repeat split; intros; congruence.
Qed.

Lemma unsupportedMsg_names name pos :
  occursIn name (unsupportedMsg showPos name pos) /\
  occursIn (showPos pos) (unsupportedMsg showPos name pos).
Proof.
  unfold unsupportedMsg. split.
  - by eexists "primop '", _.
  - eexists ("primop '" +:+ name +:+
      "' is not (yet) supported in Record/Playback mode (used at '"), "')".
    by rewrite !append_assoc.
Qed.

(** What [addUnsupportedImpurePrimOp] registers, mode by mode.  In Record
    and in Playback mode the descriptor under the name carries a function
    that throws for every position, argument array and state, without
    touching the state; the message contains the name of the operation
    and the printed position.  The test of the mode names these two modes
    only: in Normal mode, and in RecordAndPlayback mode as well, the
    descriptor carries the real implementation. *)
Lemma addUnsupportedImpurePrimOp_registers
    st name arity primOp baseEnv :
  let baseEnv' := addUnsupportedImpurePrimOp showPos st name arity primOp baseEnv in
  (evalMode st = Record_ \/ evalMode st = Playback ->
   exists p, baseEnv' !! name = Some p /\
     forall pos args s,
       fn p pos args s = (Throw (EvalError (unsupportedMsg showPos name pos)), s) /\
       occursIn name (unsupportedMsg showPos name pos) /\
       occursIn (showPos pos) (unsupportedMsg showPos name pos)) /\
  (evalMode st = Normal \/ evalMode st = RecordAndPlayback ->
   baseEnv' !! name = Some (mkPrimOp primOp arity name)).
Proof.
  intros baseEnv'. unfold baseEnv', addUnsupportedImpurePrimOp, addPrimOp.
  split.
  - intros Hmode.
    assert (bool_decide (evalMode st = Record_)
            || bool_decide (evalMode st = Playback) = true) as ->.
    { destruct Hmode as [-> | ->]; reflexivity. }
    eexists. split; [apply lookup_insert_eq |].
    intros pos args s. split; [reflexivity | apply unsupportedMsg_names].
  - intros Hmode.
    assert (bool_decide (evalMode st = Record_)
            || bool_decide (evalMode st = Playback) = false) as ->.
    { destruct Hmode as [-> | ->]; reflexivity. }
    apply lookup_insert_eq.
Qed.

End RegistrationFacts.

(** ** Forcing *)

Section ForcingFacts.

Context {Pos : Type}.
Implicit Types (E : Evaluator (Pos := Pos)) (v : ValuePtr) (st : EvalState).

(** Forcing a cell that holds a concrete value does nothing and calls
    nothing. *)
Lemma forceValue_concrete E v pos st x :
  cells st !! v = Some x -> isConcrete x = true ->
  forceValue E v pos st = (Ok tt, st).
Proof.
  intros Hcell Hx. unfold forceValue, mbind, Eval_bind, getState.
  rewrite Hcell. by destruct x.
Qed.

(** Forcing a blackhole is the infinite recursion error. *)
Lemma forceValue_blackhole E v pos st :
  cells st !! v = Some tBlackhole ->
  forceValue E v pos st = (Throw InfiniteRecursionError, st).
Proof.
  intros Hcell. unfold forceValue, mbind, Eval_bind, getState.
  by rewrite Hcell.
Qed.

(** Forcing a thunk: mark, evaluate, overwrite on success. *)
Lemma forceValue_thunk E v pos st env expr :
  cells st !! v = Some (tThunk env expr) ->
  forceValue E v pos st
  = match evalExpr E expr env (setCell v tBlackhole st) with
    | (Ok r, st2) => (Ok tt, setCell v r st2)
    | (Throw e, st2) => (Throw e, st2)
    end.
Proof.
  intros Hcell. unfold forceValue, mbind, Eval_bind, getState, modifyState.
  rewrite Hcell.
  by destruct (evalExpr E expr env (setCell v tBlackhole st)) as [[r | e] st2].
Qed.

Lemma forceRepeatedly_fixed E v pos n st o :
  forceValue E v pos st = (o, st) ->
  forceRepeatedly E v pos n st = (replicate n o, st).
Proof.
  intros Hstep. induction n as [|n IH]; simpl; [done |].
  by rewrite Hstep, IH.
Qed.

(** C7.  A thunk cell whose evaluation returns the concrete value [r]:
    the first force runs the evaluation once and leaves [r] in the
    cell.  From then on, in every state in which the cell (reached
    through whichever copy of the handle [v]) still holds [r], a force
    returns without changing the state, for every evaluator [E'] that
    it could call: nothing is evaluated again.  So do [n] forces in a
    row. *)
Theorem forceValue_memoizes E E' v pos st env expr r st2 n :
  cells st !! v = Some (tThunk env expr) ->
  evalExpr E expr env (setCell v tBlackhole st) = (Ok r, st2) ->
  isConcrete r = true ->
  forceValue E v pos st = (Ok tt, setCell v r st2) /\
  cells (setCell v r st2) !! v = Some r /\
  (forall pos' st', cells st' !! v = Some r ->
     forceValue E' v pos' st' = (Ok tt, st')) /\
  forceRepeatedly E' v pos n (setCell v r st2)
    = (replicate n (Ok tt), setCell v r st2).
Proof.
  intros Hcell Heval Hr.
  assert (Hafter : cells (setCell v r st2) !! v = Some r)
    by apply lookup_insert_eq.
  split; [by rewrite (forceValue_thunk _ _ _ _ _ _ Hcell), Heval |].
  split; [done |].
  split; [intros pos' st' Hst'; by eapply forceValue_concrete |].
  apply forceRepeatedly_fixed. by eapply forceValue_concrete.
Qed.

(** C8.  A thunk cell whose evaluation throws [e], the evaluation not
    having written to the cell itself: the force throws [e] and the cell
    is left a blackhole.  In every later state in which the cell is
    still that blackhole, a force fails with the infinite recursion
    error and changes nothing, for every evaluator [E'] it could call:
    the expression is not evaluated again.  So do [n] forces in a row. *)
Theorem forceValue_failure_is_permanent E E' v pos st env expr e st2 n :
  cells st !! v = Some (tThunk env expr) ->
  evalExpr E expr env (setCell v tBlackhole st) = (Throw e, st2) ->
  cells st2 !! v = cells (setCell v tBlackhole st) !! v ->
  forceValue E v pos st = (Throw e, st2) /\
  cells st2 !! v = Some tBlackhole /\
  (forall pos' st', cells st' !! v = Some tBlackhole ->
     forceValue E' v pos' st' = (Throw InfiniteRecursionError, st')) /\
  forceRepeatedly E' v pos n st2
    = (replicate n (Throw InfiniteRecursionError), st2).
Proof.
  intros Hcell Heval Hframe.
  assert (Hhole : cells st2 !! v = Some tBlackhole).
  { rewrite Hframe. apply lookup_insert_eq. }
  split; [by rewrite (forceValue_thunk _ _ _ _ _ _ Hcell), Heval |].
  split; [done |].
  split; [intros pos' st' Hst'; by apply forceValue_blackhole |].
  apply forceRepeatedly_fixed. by apply forceValue_blackhole.
Qed.

End ForcingFacts.

(** ** Search path lookup *)

Section SearchPathFacts.

Context {Pos : Type}.
Variable pathExists : Path -> bool.
Variable resolve : string -> Path -> string -> option Path.

Lemma findFileLoop_first (before after : SearchPath) entry path :
  (forall e, e ∈ before -> entryExists pathExists resolve e path = false) ->
  entryExists pathExists resolve entry path = true ->
  findFileLoop pathExists resolve (before ++ entry :: after) path = Some entry.2.
Proof.
  intros Hbefore Hentry. induction before as [|e before IH]; simpl.
  - by rewrite Hentry.
  - rewrite (Hbefore e) by (by left). apply IH.
    intros e' He'. apply Hbefore. by right.
Qed.

Lemma findFileLoop_none (searchPath : SearchPath) path :
  (forall e, e ∈ searchPath -> entryExists pathExists resolve e path = false) ->
  findFileLoop pathExists resolve searchPath path = None.
Proof.
  intros Hnone. induction searchPath as [|e searchPath IH]; simpl; [done |].
  rewrite (Hnone e) by (by left). apply IH.
  intros e' He'. apply Hnone. by right.
Qed.

Lemma findFileLoop_Some (searchPath : SearchPath) path target :
  findFileLoop pathExists resolve searchPath path = Some target ->
  exists before entry after,
    searchPath = before ++ entry :: after /\
    (forall e, e ∈ before -> entryExists pathExists resolve e path = false) /\
    entryExists pathExists resolve entry path = true /\
    target = entry.2.
Proof.
  induction searchPath as [|e searchPath IH]; simpl; [done |].
  destruct (entryExists pathExists resolve e path) eqn:He.
  - intros [= <-]. exists [], e, searchPath.
    split; [done |]. split; [| done]. intros e' He'. by apply elem_of_nil in He'.
  - intros Hrest.
    destruct (IH Hrest) as (before & entry & after & -> & Hb & Hin & ->).
    exists (e :: before), entry, after. split; [done |]. split; [| done].
    intros e' He'. apply elem_of_cons in He' as [-> | He']; [done | by apply Hb].
Qed.

(** C9.  For a search path and a requested name: if the path splits
    into entries none of which resolves to an existing location, then an
    entry that does, then the rest, [findFile] returns the target of
    that entry, whatever follows it; if no entry resolves to an existing
    location, it throws the file not found error carrying the name and
    the search path tried.  The state is not changed, and a target is
    returned in no other case than the first. *)
Theorem findFile_first_match (searchPath : SearchPath) path (pos : Pos) st :
  (forall before entry after,
    searchPath = before ++ entry :: after ->
    (forall e, e ∈ before -> entryExists pathExists resolve e path = false) ->
    entryExists pathExists resolve entry path = true ->
    findFile pathExists resolve searchPath path pos st = (Ok entry.2, st)) /\
  ((forall e, e ∈ searchPath -> entryExists pathExists resolve e path = false) ->
    findFile pathExists resolve searchPath path pos st
    = (Throw (FileNotFoundError path searchPath), st)) /\
  (forall target st',
    findFile pathExists resolve searchPath path pos st = (Ok target, st') ->
    st' = st /\
    exists before entry after,
      searchPath = before ++ entry :: after /\
      (forall e, e ∈ before -> entryExists pathExists resolve e path = false) /\
      entryExists pathExists resolve entry path = true /\
      target = entry.2).
Proof.
  split; [| split].
  - intros before entry after -> Hbefore Hentry. unfold findFile.
    by rewrite (findFileLoop_first _ _ _ _ Hbefore Hentry).
  - intros Hnone. unfold findFile. by rewrite (findFileLoop_none _ _ Hnone).
  - intros target st'. unfold findFile.
    destruct (findFileLoop pathExists resolve searchPath path) as [t |] eqn:Hloop;
      [| discriminate].
    intros [= <- <-]. split; [done |]. by apply findFileLoop_Some.
Qed.

End SearchPathFacts.

(** ** The properties at work on the fixtures *)

(** The key loop on the fixture: position 0 is masked, position 1 is not. *)
Example collectArgList_fixture :
  collectArgList Fixture.parameterValue 2 (onlyPos 0) Fixture.argsA
    (Fixture.state0 Record_)
  = (Ok ["HOME"], Fixture.state0 Record_).
Proof. reflexivity. Qed.

Example onlyPos_fixture :
  onlyPos 1 0 = false /\ onlyPos 1 1 = true /\ onlyPos (-1) 0 = false.
Proof. repeat split; reflexivity. Qed.

Example playbackErrorMsg_fixture :
  playbackErrorMsg "getEnv" ["HOME"; "x"] = "wanted to call getEnv(HOME, x, )".
Proof. reflexivity. Qed.

(** C1 on the fixture: two recorded calls of [tick] with the key
    (getEnv, [HOME]); the implementation ran twice (the counter is 2) and
    the table holds the second result. *)
Lemma recordPrimOp_last_write_wins_witness :
  (Fixture.recordTick "p" Fixture.argsA
     ≫= fun _ => Fixture.recordTick "q" Fixture.argsB) (Fixture.state0 Record_)
    = (Ok (tInt 1), Fixture.afterSecond) /\
  recording Fixture.afterSecond !! Fixture.key = Some (tInt 1) /\
  cells Fixture.afterSecond !! Fixture.counter = Some (tInt 2).
Proof.
  pose proof (recordPrimOp_last_write_wins Fixture.parameterValue "getEnv" 2
    Fixture.tick (onlyPos 0) "p" Fixture.argsA "q" Fixture.argsB
    (Fixture.state0 Record_) ["HOME"] (Fixture.state0 Record_)
    (tInt 0) (setCell Fixture.counter (tInt 1) (Fixture.state0 Record_))
    Fixture.afterFirst (tInt 1)
    (setCell Fixture.counter (tInt 2) Fixture.afterFirst)) as H.
  destruct H as (_ & _ & _ & Hboth & Hlookup);
    [reflexivity | vm_compute; reflexivity | vm_compute; reflexivity
    | vm_compute; reflexivity | vm_compute; reflexivity |].
  split; [exact Hboth |]. split; vm_compute; reflexivity.
Defined.

(** C2 on the fixture: the replayed call returns the stored string and
    the counter of [tick] stays at zero. *)
Lemma playbackPrimOp_hit_witness :
  playbackPrimOp Fixture.parameterValue "getEnv" 2 Fixture.tick (onlyPos 0)
    "p" Fixture.argsA Fixture.replayState
    = (Ok (tString "/home/alice" ∅), Fixture.replayState) /\
  cells Fixture.replayState !! Fixture.counter = Some (tInt 0).
Proof.
  split; [| vm_compute; reflexivity].
  apply (playbackPrimOp_hit Fixture.parameterValue "getEnv" 2 Fixture.tick
    (onlyPos 0) "p" Fixture.argsA Fixture.replayState ["HOME"]
    Fixture.replayState (tString "/home/alice" ∅));
    [reflexivity | vm_compute; reflexivity | vm_compute; reflexivity].
Defined.



(** C6 on the fixture: the arrays differ at position 1, which the mask
    leaves out. *)
Lemma replay_key_ignores_unmasked_arguments_witness :
  Fixture.argsA 1%nat <> Fixture.argsB 1%nat /\
  collectArgList Fixture.parameterValue 2 (onlyPos 0) Fixture.argsA
    (Fixture.state0 Record_)
  = collectArgList Fixture.parameterValue 2 (onlyPos 0) Fixture.argsB
    (Fixture.state0 Record_).
Proof.
  split; [discriminate |].
  apply (replay_key_ignores_unmasked_arguments Fixture.parameterValue "getEnv" 2
    Fixture.tick (onlyPos 0) "p" "q" Fixture.argsA Fixture.argsB
    (Fixture.state0 Record_)).
  intros [|[|i]] Hi Hmask; [reflexivity | discriminate Hmask | lia].
Defined.

(** C10 on the fixture: the implementation had its effect (the counter is
    1) and threw; the table is still empty. *)
Lemma recordPrimOp_error_leaves_table_witness :
  recordPrimOp Fixture.parameterValue "getEnv" 2 Fixture.tickThenFail (onlyPos 0)
    "p" Fixture.argsA (Fixture.state0 Record_)
    = (Throw (EvalError "implementation failed"), Fixture.ticked Record_) /\
  recording (Fixture.ticked Record_) = ∅.
Proof.
  split; [| reflexivity].
  apply (recordPrimOp_error_leaves_table Fixture.parameterValue "getEnv" 2
    Fixture.tickThenFail (onlyPos 0) "p" Fixture.argsA (Fixture.state0 Record_)
    ["HOME"] (Fixture.state0 Record_));
    [reflexivity | vm_compute; reflexivity | vm_compute; reflexivity].
Defined.

(** C4, where the description of the design departs from the header: in
    RecordAndPlayback mode [transformPrimOp] yields no function at all,
    so in particular none that behaves as Playback first, Record on a
    miss. *)
Lemma transformPrimOp_RecordAndPlayback_counterexample :
  ~ exists f,
      transformPrimOp Fixture.parameterValue (Fixture.state0 RecordAndPlayback)
        "getEnv" 2 Fixture.tick (onlyPos 0) = Some f /\
      forall pos args st,
        f pos args st
        = playbackThenRecord Fixture.parameterValue "getEnv" 2 Fixture.tick
            (onlyPos 0) pos args st.
Proof. intros (f & Hf & _). discriminate Hf. Qed.

(** C4 on the fixture: registration aborts in RecordAndPlayback mode and
    yields the Record wrapper in Record mode. *)
Lemma transformPrimOp_RecordAndPlayback_aborts_witness :
  addImpurePrimOp Fixture.parameterValue (Fixture.state0 RecordAndPlayback)
    "getEnv" 2 Fixture.tick (onlyPos 0) ∅ = None /\
  transformPrimOp Fixture.parameterValue (Fixture.state0 Record_)
    "getEnv" 2 Fixture.tick (onlyPos 0)
  = Some (recordPrimOp Fixture.parameterValue "getEnv" 2 Fixture.tick (onlyPos 0)).
Proof.
  split.
  - apply (transformPrimOp_RecordAndPlayback_aborts Fixture.parameterValue
      (Fixture.state0 RecordAndPlayback) "getEnv" 2 Fixture.tick (onlyPos 0) ∅).
    reflexivity.
  - apply (transformPrimOp_RecordAndPlayback_aborts Fixture.parameterValue
      (Fixture.state0 Record_) "getEnv" 2 Fixture.tick (onlyPos 0) ∅).
    reflexivity.
Defined.

(** C5, at the mode that the test in [addUnsupportedImpurePrimOp] leaves
    out.  RecordAndPlayback is a playback mode for [isInPlaybackMode],
    and in Record and in Playback mode the operation is registered with
    the function that rejects it; yet in RecordAndPlayback mode the
    descriptor registered for the unsupported operation carries the real
    implementation, as in Normal mode. *)
Theorem addUnsupportedImpurePrimOp_RecordAndPlayback :
  isInPlaybackMode (Fixture.state0 RecordAndPlayback) = true /\
  addUnsupportedImpurePrimOp Fixture.showPos (Fixture.state0 RecordAndPlayback)
    "exec" 1 Fixture.tick ∅ !! "exec"
  = Some (mkPrimOp Fixture.tick 1 "exec") /\
  addUnsupportedImpurePrimOp Fixture.showPos (Fixture.state0 Normal)
    "exec" 1 Fixture.tick ∅ !! "exec"
  = Some (mkPrimOp Fixture.tick 1 "exec") /\
  addUnsupportedImpurePrimOp Fixture.showPos (Fixture.state0 Record_)
    "exec" 1 Fixture.tick ∅ !! "exec"
  = Some (mkPrimOp (unsupportedPrimOp Fixture.showPos "exec") 1 "exec") /\
  addUnsupportedImpurePrimOp Fixture.showPos (Fixture.state0 Playback)
    "exec" 1 Fixture.tick ∅ !! "exec"
  = Some (mkPrimOp (unsupportedPrimOp Fixture.showPos "exec") 1 "exec").
Proof.
  split; [reflexivity |].
  split; [| split].
  - apply (addUnsupportedImpurePrimOp_registers Fixture.showPos
      (Fixture.state0 RecordAndPlayback) "exec" 1 Fixture.tick ∅).
    by right.
  - apply (addUnsupportedImpurePrimOp_registers Fixture.showPos
      (Fixture.state0 Normal) "exec" 1 Fixture.tick ∅).
    by left.
  - split; vm_compute; reflexivity.
Qed.

(** In Playback mode the registered function rejects the call. *)
Example addUnsupportedImpurePrimOp_fixture :
  exists p,
    addUnsupportedImpurePrimOp Fixture.showPos (Fixture.state0 Playback)
      "exec" 1 Fixture.tick ∅ !! "exec" = Some p /\
    fn p "cfg.nix:3:7" Fixture.argsA (Fixture.state0 Playback)
    = (Throw (EvalError
        "primop 'exec' is not (yet) supported in Record/Playback mode (used at 'cfg.nix:3:7')"),
       Fixture.state0 Playback).
Proof.
  destruct (proj1 (addUnsupportedImpurePrimOp_registers Fixture.showPos
    (Fixture.state0 Playback) "exec" 1 Fixture.tick ∅)) as (p & Hp & Hcall);
    [right; reflexivity |].
  exists p. split; [exact Hp |].
  exact (proj1 (Hcall "cfg.nix:3:7" Fixture.argsA (Fixture.state0 Playback))).
Qed.

(** C7 on the fixture: cell 5 is forced with the counting evaluator, then
    three more times with an evaluator that would return something else;
    the counter shows one evaluation and the cell holds 42. *)
Lemma forceValue_memoizes_witness :
  forceValue Fixture.evaluator 5%positive "p" Fixture.thunks
    = (Ok tt, Fixture.forced) /\
  forceRepeatedly Fixture.lenient 5%positive "p" 3 Fixture.forced
    = ([Ok tt; Ok tt; Ok tt], Fixture.forced) /\
  cells Fixture.forced !! Fixture.counter = Some (tInt 1).
Proof.
  pose proof (forceValue_memoizes Fixture.evaluator Fixture.lenient 5%positive
    "p" Fixture.thunks 1%positive 1%positive (tInt 42)
    (setCell Fixture.counter (tInt 1)
       (setCell 5%positive tBlackhole Fixture.thunks)) 3) as H.
  destruct H as (Hfirst & _ & _ & Hlater);
    [vm_compute; reflexivity | vm_compute; reflexivity | reflexivity |].
  split; [exact Hfirst |]. split; [exact Hlater | vm_compute; reflexivity].
Defined.

(** C8 on the fixture: the evaluation of cell 6 fails; forcing it again,
    even with an evaluator for which every expression evaluates, fails
    each time and evaluates nothing. *)
Lemma forceValue_failure_is_permanent_witness :
  forceValue Fixture.evaluator 6%positive "p" Fixture.thunks
    = (Throw (EvalError "assertion failed"), Fixture.failed) /\
  cells Fixture.failed !! 6%positive = Some tBlackhole /\
  forceRepeatedly Fixture.lenient 6%positive "p" 2 Fixture.failed
    = ([Throw InfiniteRecursionError; Throw InfiniteRecursionError],
       Fixture.failed).
Proof.
  pose proof (forceValue_failure_is_permanent Fixture.evaluator Fixture.lenient
    6%positive "p" Fixture.thunks 1%positive 2%positive
    (EvalError "assertion failed") Fixture.failed 2) as H.
  destruct H as (Hfirst & Hhole & _ & Hlater);
    [vm_compute; reflexivity | vm_compute; reflexivity | vm_compute; reflexivity |].
  split; [exact Hfirst |]. split; [exact Hhole | exact Hlater].
Defined.

(** C9 on the fixture: default.nix exists under both directories and the
    first wins; lib.nix exists only under the second; missing.nix under
    neither. *)
Lemma findFile_first_match_witness :
  findFile Fixture.pathExists Fixture.resolve Fixture.twoDirs "default.nix" "p"
    (Fixture.state0 Normal) = (Ok "/a", Fixture.state0 Normal) /\
  findFile Fixture.pathExists Fixture.resolve Fixture.twoDirs "lib.nix" "p"
    (Fixture.state0 Normal) = (Ok "/b", Fixture.state0 Normal) /\
  findFile Fixture.pathExists Fixture.resolve Fixture.twoDirs "missing.nix" "p"
    (Fixture.state0 Normal)
  = (Throw (FileNotFoundError "missing.nix" Fixture.twoDirs), Fixture.state0 Normal).
Proof.
  split; [| split].
  - apply (proj1 (findFile_first_match Fixture.pathExists Fixture.resolve
      Fixture.twoDirs "default.nix" "p" (Fixture.state0 Normal))
      [] ("", "/a") [("", "/b")]); [reflexivity | | reflexivity].
    intros e He. by apply elem_of_nil in He.
  - apply (proj1 (findFile_first_match Fixture.pathExists Fixture.resolve
      Fixture.twoDirs "lib.nix" "p" (Fixture.state0 Normal))
      [("", "/a")] ("", "/b") []); [reflexivity | | reflexivity].
    intros e He. apply list_elem_of_singleton in He as ->. reflexivity.
  - apply (proj1 (proj2 (findFile_first_match Fixture.pathExists Fixture.resolve
      Fixture.twoDirs "missing.nix" "p" (Fixture.state0 Normal)))).
    intros e He. unfold Fixture.twoDirs in He.
    apply elem_of_cons in He as [-> | He]; [reflexivity |].
    apply list_elem_of_singleton in He as ->. reflexivity.
Defined.

(** ** More about the wrappers *)

Section WrapperFacts.

Context {Pos : Type}.
Variable parameterValue : ValuePtr -> Eval string.

Implicit Types (primOp anyPrimOp : PrimOpFun (Pos := Pos)).
Implicit Types (useArgument : UsedArguments).
Implicit Types (args : nat -> ValuePtr) (st : EvalState).

Lemma stringifyEach_app (ps1 ps2 : list ValuePtr) st :
  stringifyEach parameterValue (ps1 ++ ps2) st
  = (strs1 ← stringifyEach parameterValue ps1;
     strs2 ← stringifyEach parameterValue ps2;
     mret (strs1 ++ strs2)) st.
Proof.
  revert st. induction ps1 as [|p ps1 IH]; intros st; simpl.
  - unfold mbind, Eval_bind, mret, Eval_ret.
    by destruct (stringifyEach parameterValue ps2 st) as [[strs | e] st'].
  - unfold mbind, Eval_bind.
    destruct (parameterValue p st) as [[s | e] st1]; [| done].
    rewrite IH. unfold mbind, Eval_bind, mret, Eval_ret.
    destruct (stringifyEach parameterValue ps1 st1) as [[strs1 | e] st2]; [| done].
    by destruct (stringifyEach parameterValue ps2 st2) as [[strs2 | e] st3].
Qed.

Lemma stringifyEach_invariant (I : EvalState -> Prop) (ps : list ValuePtr) st :
  (forall p s, I s -> I (parameterValue p s).2) ->
  I st -> I (stringifyEach parameterValue ps st).2.
Proof.
  intros Hpv. revert st. induction ps as [|p ps IH]; intros st Hst; [done |].
  simpl. unfold mbind, Eval_bind.
  pose proof (Hpv p st Hst) as Hp.
  destruct (parameterValue p st) as [[s | e] st1]; [| done].
  pose proof (IH st1 Hp) as Hrest.
  by destruct (stringifyEach parameterValue ps st1) as [[strs | e] st2].
Qed.

Lemma stringifyEach_length (ps : list ValuePtr) st strs st' :
  stringifyEach parameterValue ps st = (Ok strs, st') -> length strs = length ps.
Proof.
  revert st strs st'. induction ps as [|p ps IH]; intros st strs st'; simpl.
  - by intros [= <- _].
  - unfold mbind, Eval_bind.
    destruct (parameterValue p st) as [[s | e] st1]; [| by intros [=]].
    destruct (stringifyEach parameterValue ps st1) as [[rest | e] st2] eqn:Hrest;
      [| by intros [=]].
    intros [= <- _]. simpl. f_equal. by eapply IH.
Qed.

(** X1.  What Record stores, Playback returns.  A recorded call that
    succeeded with [v], followed by a Playback call that computes the
    same key from the state after it without the stringifier writing to
    the table, returns [v]; the Playback call does so whatever
    implementation it wraps. *)
Theorem record_then_playback
    name arity primOp anyPrimOp useArgument pos args pos' args'
    st argList st1 v st2 st3 :
  collectArgList parameterValue arity useArgument args st = (Ok argList, st1) ->
  primOp pos args st1 = (Ok v, st2) ->
  collectArgList parameterValue arity useArgument args'
    (setRecording (insert (name, argList) v) st2) = (Ok argList, st3) ->
  recording st3 = recording (setRecording (insert (name, argList) v) st2) ->
  (recordPrimOp parameterValue name arity primOp useArgument pos args
   ≫= fun _ =>
     playbackPrimOp parameterValue name arity anyPrimOp useArgument pos' args') st
  = (Ok v, st3).
Proof.
  intros Hkey Himpl Hkey' Htable.
  rewrite (bind_Ok _ _ st v (setRecording (insert (name, argList) v) st2)).
  - rewrite (playbackPrimOp_unfold _ _ _ _ _ _ _ _ _ _ Hkey').
    rewrite Htable. simpl. by rewrite lookup_insert_eq.
  - rewrite (recordPrimOp_unfold _ _ _ _ _ _ _ _ _ _ Hkey). by rewrite Himpl.
Qed.

(** X2.  A successful Record call changes one entry of the table and
    nothing else: compared with the state the implementation left, every
    other key has the entry it had, the set of keys grows by the key of
    the call, the table has the same size or one entry more, and the
    cells, the mode and the search path are the same. *)
Theorem recordPrimOp_writes_one_entry
    name arity primOp useArgument pos args st argList st1 v st2 :
  collectArgList parameterValue arity useArgument args st = (Ok argList, st1) ->
  primOp pos args st1 = (Ok v, st2) ->
  exists final,
    recordPrimOp parameterValue name arity primOp useArgument pos args st
      = (Ok v, final) /\
    (forall k, k <> (name, argList) -> recording final !! k = recording st2 !! k) /\
    dom (recording final) = {[ (name, argList) ]} ∪ dom (recording st2) /\
    (size (recording st2) <= size (recording final) <= S (size (recording st2)))%nat /\
    cells final = cells st2 /\
    evalMode final = evalMode st2 /\
    searchPath final = searchPath st2.
Proof.
  intros Hkey Himpl. exists (setRecording (insert (name, argList) v) st2).
  split.
  { rewrite (recordPrimOp_unfold _ _ _ _ _ _ _ _ _ _ Hkey). by rewrite Himpl. }
  simpl. split; [intros k Hk; by rewrite lookup_insert_ne |].
  split; [apply dom_insert_L |].
  split; [| done].
  destruct (recording st2 !! (name, argList)) as [old |] eqn:Hold.
  - rewrite map_size_insert_Some by eauto. lia.
  - rewrite map_size_insert_None by done. lia.
Qed.

(** X3.  The Playback wrapper writes nothing of its own: every property
    of the state that stringifying an argument preserves holds after a
    Playback call if it held before, whether the call returned a stored
    value, missed, or failed while computing the key.  In particular the
    table is the same when the stringifier does not write to it. *)
Theorem playbackPrimOp_preserves
    (I : EvalState -> Prop) name arity primOp useArgument pos args st :
  (forall p s, I s -> I (parameterValue p s).2) ->
  I st ->
  I (playbackPrimOp parameterValue name arity primOp useArgument pos args st).2.
Proof.
  intros Hpv Hst. unfold playbackPrimOp, mbind, Eval_bind, getState.
  rewrite collectArgList_stringifyEach.
  pose proof (stringifyEach_invariant I
    (args <$> List.filter useArgument (seq 0 arity)) st Hpv Hst) as Hkey.
  destruct (stringifyEach parameterValue _ st) as [[argList | e] st1]; [| done].
  by destruct (recording st1 !! (name, argList)).
Qed.

(** X4.  The masked arguments are stringified in order and the first
    failure ends the call: when the masked arguments are [ps1], then [p],
    then [ps2], those of [ps1] stringify and [p] throws [e], both
    wrappers throw [e] in the state that stringifying [p] left.  The
    arguments of [ps2] are not looked at, the implementation is not run
    and the Record wrapper writes nothing. *)
Theorem wrappers_stop_at_first_failing_argument
    name arity primOp useArgument pos args st ps1 p ps2 strs st1 e st2 :
  args <$> List.filter useArgument (seq 0 arity) = ps1 ++ p :: ps2 ->
  stringifyEach parameterValue ps1 st = (Ok strs, st1) ->
  parameterValue p st1 = (Throw e, st2) ->
  recordPrimOp parameterValue name arity primOp useArgument pos args st
    = (Throw e, st2) /\
  playbackPrimOp parameterValue name arity primOp useArgument pos args st
    = (Throw e, st2).
Proof.
  intros Hmasked Hfirst Hp.
  assert (Hkey : collectArgList parameterValue arity useArgument args st
                 = (Throw e, st2)).
  { rewrite collectArgList_stringifyEach, Hmasked, stringifyEach_app.
    rewrite (bind_Ok _ _ _ _ _ Hfirst). simpl.
    unfold mbind, Eval_bind. by rewrite Hp. }
  split.
  - by apply recordPrimOp_key_failed.
  - unfold playbackPrimOp. by rewrite (bind_Throw _ _ _ _ _ Hkey).
Qed.

(** X11.  Recording does not change what a call computes.  When
    stringifying the masked arguments succeeds and leaves the state as it
    is, the Record wrapper returns or throws exactly what the
    implementation called directly (the Normal dispatch) returns or
    throws, and leaves the same cells, mode and search path; the two
    final states differ at most in the table. *)
Theorem recordPrimOp_transparent
    name arity primOp useArgument pos args st argList :
  collectArgList parameterValue arity useArgument args st = (Ok argList, st) ->
  (recordPrimOp parameterValue name arity primOp useArgument pos args st).1
    = (primOp pos args st).1 /\
  cells (recordPrimOp parameterValue name arity primOp useArgument pos args st).2
    = cells (primOp pos args st).2 /\
  evalMode (recordPrimOp parameterValue name arity primOp useArgument pos args st).2
    = evalMode (primOp pos args st).2 /\
  searchPath (recordPrimOp parameterValue name arity primOp useArgument pos args st).2
    = searchPath (primOp pos args st).2.
Proof.
  intros Hkey. rewrite (recordPrimOp_unfold _ _ _ _ _ _ _ _ _ _ Hkey).
  by destruct (primOp pos args st) as [[v | e] st2].
Qed.

End WrapperFacts.

(** ** The argument-usage masks *)

Lemma filter_none {A : Type} (f : A -> bool) (l : list A) :
  (forall x, x ∈ l -> f x = false) -> List.filter f l = [].
Proof.
  induction l as [|x l IH]; intros Hnone; [done |]. simpl.
  rewrite (Hnone x) by (by left). apply IH. intros y Hy. apply Hnone. by right.
Qed.

Lemma filter_all {A : Type} (f : A -> bool) (l : list A) :
  (forall x, x ∈ l -> f x = true) -> List.filter f l = l.
Proof.
  induction l as [|x l IH]; intros Hall; [done |]. simpl.
  rewrite (Hall x) by (by left). f_equal. apply IH.
  intros y Hy. apply Hall. by right.
Qed.

Lemma filter_length_le {A : Type} (f : A -> bool) (l : list A) :
  (length (List.filter f l) <= length l)%nat.
Proof.
  induction l as [|x l IH]; simpl; [lia |]. destruct (f x); simpl; lia.
Qed.

(** Below an arity that an [unsigned int] can hold, [onlyPos] with a
    position in range selects that position and no other. *)
Lemma filter_onlyPos_in_range (argumentPos : Z) (arity : nat) :
  0 <= argumentPos < Z.of_nat arity -> Z.of_nat arity <= 2 ^ 32 ->
  List.filter (onlyPos argumentPos) (seq 0 arity) = [Z.to_nat argumentPos].
Proof.
  intros Hrange Harity.
  assert (Hmod : argumentPos `mod` 2 ^ 32 = argumentPos)
    by (apply Z.mod_small; lia).
  set (k := Z.to_nat argumentPos).
  replace arity with (k + S (arity - S k))%nat by lia.
  rewrite seq_app. simpl seq. rewrite List.filter_app. simpl.
  assert (Hk : onlyPos argumentPos k = true).
  { unfold onlyPos. rewrite Hmod. apply Z.eqb_eq. lia. }
  rewrite Hk.
  rewrite (filter_none (onlyPos argumentPos) (seq 0 k)).
  - rewrite (filter_none (onlyPos argumentPos) (seq (S k) _)); [done |].
    intros i Hi. apply elem_of_seq in Hi. unfold onlyPos. rewrite Hmod.
    apply Z.eqb_neq. lia.
  - intros i Hi. apply elem_of_seq in Hi. unfold onlyPos. rewrite Hmod.
    apply Z.eqb_neq. lia.
Qed.

(** A position at or beyond the arity, or a negative [int] (which the
    comparison turns into an [unsigned int] of at least 2^31), selects
    nothing. *)
Lemma filter_onlyPos_out_of_range (argumentPos : Z) (arity : nat) :
  Z.of_nat arity <= argumentPos < 2 ^ 32 \/
  (- 2 ^ 31 <= argumentPos < 0 /\ Z.of_nat arity <= 2 ^ 31) ->
  List.filter (onlyPos argumentPos) (seq 0 arity) = [].
Proof.
  intros Hrange. apply filter_none. intros i Hi. apply elem_of_seq in Hi.
  unfold onlyPos. apply Z.eqb_neq.
  destruct Hrange as [Hbeyond | [Hneg Harity]].
  - rewrite Z.mod_small by lia. lia.
  - change (2 ^ 32) with 4294967296 in *. change (2 ^ 31) with 2147483648 in *.
    rewrite <- (Z.mod_unique argumentPos 4294967296 (-1)
                  (argumentPos + 4294967296)); lia.
Qed.

Section MaskFacts.

Context {Pos : Type}.
Variable parameterValue : ValuePtr -> Eval string.

Implicit Types (primOp : PrimOpFun (Pos := Pos)) (useArgument : UsedArguments).
Implicit Types (args : nat -> ValuePtr) (st : EvalState).

(** X5.  With the mask [onlyPos<p>] for a position [p] below the arity,
    the key list is the one argument at position [p], stringified: the
    loop calls the stringifier once, on that argument, and fails exactly
    when that call fails. *)
Theorem onlyPos_key_is_one_argument (argumentPos : Z) arity args st :
  0 <= argumentPos < Z.of_nat arity ->
  Z.of_nat arity <= 2 ^ 32 ->
  collectArgList parameterValue arity (onlyPos argumentPos) args st
  = match parameterValue (args (Z.to_nat argumentPos)) st with
    | (Ok s, st') => (Ok [s], st')
    | (Throw e, st') => (Throw e, st')
    end.
Proof.
  intros Hrange Harity.
  rewrite collectArgList_stringifyEach.
  rewrite (filter_onlyPos_in_range _ _ Hrange Harity). simpl.
  unfold mbind, Eval_bind, mret, Eval_ret.
  by destruct (parameterValue (args (Z.to_nat argumentPos)) st) as [[s | e] st'].
Qed.

(** X6.  With the mask [onlyPos<p>] for a position [p] at or beyond the
    arity, or for a negative [p] (the arity then being at most 2^31), no
    argument is stringified and the key list is empty, for every argument
    array and state.  All calls of the operation then share the key
    (name, empty list): a Playback call returns the entry under that key
    whatever its arguments are, and without it misses with the message
    [wanted to call NAME()] as a C string, which for a name that holds no
    NUL is that very text. *)
Theorem onlyPos_out_of_range_key_is_empty
    (argumentPos : Z) name arity primOp pos args st :
  Z.of_nat arity <= argumentPos < 2 ^ 32 \/
  (- 2 ^ 31 <= argumentPos < 0 /\ Z.of_nat arity <= 2 ^ 31) ->
  collectArgList parameterValue arity (onlyPos argumentPos) args st = (Ok [], st) /\
  playbackPrimOp parameterValue name arity primOp (onlyPos argumentPos) pos args st
  = match recording st !! (name, []) with
    | Some result => (Ok result, st)
    | None =>
        (Throw (EvalError (c_str ("wanted to call " +:+ (name +:+ "()")))), st)
    end /\
  (noNUL name = true ->
   c_str ("wanted to call " +:+ (name +:+ "()"))
   = "wanted to call " +:+ (name +:+ "()")).
Proof.
  intros Hrange.
  assert (Hkey : collectArgList parameterValue arity (onlyPos argumentPos) args st
                 = (Ok [], st)).
  { rewrite collectArgList_stringifyEach.
    by rewrite (filter_onlyPos_out_of_range _ _ Hrange). }
  split; [done |]. split.
  - rewrite (playbackPrimOp_unfold _ _ _ _ _ _ _ _ _ _ Hkey).
    destruct (recording st !! (name, [])); [done |].
    by rewrite playbackErrorMsg_eq.
  - intros Hname. apply c_str_noNUL.
    rewrite !noNUL_append, Hname. reflexivity.
Qed.

(** X7.  When the key is computed, its list has one string for each
    masked position below the arity: never more strings than the arity,
    and exactly as many as the arity when the mask selects every position
    below it, as [constTrue] does. *)
Theorem key_length arity useArgument args st argList st1 :
  collectArgList parameterValue arity useArgument args st = (Ok argList, st1) ->
  length argList = length (List.filter useArgument (seq 0 arity)) /\
  (length argList <= arity)%nat /\
  ((forall i, (i < arity)%nat -> useArgument i = true) -> length argList = arity).
Proof.
  rewrite collectArgList_stringifyEach. intros Hkey.
  apply stringifyEach_length in Hkey. rewrite length_fmap in Hkey.
  split; [done |]. split.
  - rewrite Hkey. etrans; [apply filter_length_le |]. by rewrite length_seq.
  - intros Hall. rewrite Hkey, filter_all, length_seq; [done |].
    intros i Hi. apply elem_of_seq in Hi. apply Hall. lia.
Qed.

(** X8.  In a mode that [isInPlaybackMode] reports, no dispatch function
    that [transformPrimOp] yields for an impure built-in depends on the
    implementation: for two implementations under the same name, arity
    and mask, the two dispatch functions agree on every call (the mode is
    Playback and both are the Playback wrapper; in RecordAndPlayback none
    is yielded). *)
Theorem playback_mode_dispatch_ignores_implementation
    (modeState : EvalState) name arity primOp (primOp' : PrimOpFun (Pos := Pos))
    useArgument (f f' : PrimOpFun (Pos := Pos)) pos args st :
  isInPlaybackMode modeState = true ->
  transformPrimOp parameterValue modeState name arity primOp useArgument = Some f ->
  transformPrimOp parameterValue modeState name arity primOp' useArgument = Some f' ->
  evalMode modeState = Playback /\ f pos args st = f' pos args st.
Proof.
  unfold isInPlaybackMode, transformPrimOp.
  destruct (evalMode modeState); simpl; try done.
  by intros _ [= <-] [= <-].
Qed.

End MaskFacts.

(** ** The miss message *)

Lemma length_append (a b : string) :
  String.length (a +:+ b) = (String.length a + String.length b)%nat.
Proof.
  induction a as [|x a IH]; [done |].
  change (S (String.length (a +:+ b)) = S (String.length a + String.length b)).
  by rewrite IH.
Qed.

Lemma commaSeparated_length (argList : list string) :
  String.length (commaSeparated argList) = argumentsLength argList.
Proof.
  induction argList as [|arg argList IH]; [done |]. simpl.
  rewrite !length_append, IH. simpl. lia.
Qed.

Lemma commaSeparated_snoc (argList : list string) (arg : string) :
  commaSeparated (argList ++ [arg]) = commaSeparated argList +:+ (arg +:+ ", ").
Proof.
  induction argList as [|a argList IH]; simpl.
  - done.
  - rewrite IH. by rewrite !append_assoc.
Qed.

Lemma length_c_str (s : string) : (String.length (c_str s) <= String.length s)%nat.
Proof.
  induction s as [|x s IH]; [done |]. simpl.
  destruct (Ascii.eqb x NUL); simpl; lia.
Qed.

(** X10.  The shape of the message that the Playback miss error carries,
    the built text as a C string.  It is never longer than 17 plus the
    length of the name plus, for each argument, its length and two.  When
    the name and the arguments hold no NUL character it is the built text
    itself: [wanted to call NAME()] for an empty key list; for a list
    that ends in [arg] it ends in [arg] followed by a comma, a space and
    the closing parenthesis (the separator also follows the last
    argument); and its length is exactly that bound. *)
Theorem playbackErrorMsg_shape (name : string) (argList : list string) :
  (String.length (c_str (playbackErrorMsg name argList))
   <= 17 + String.length name + argumentsLength argList)%nat /\
  (noNUL name = true -> Forall (fun arg => noNUL arg = true) argList ->
   c_str (playbackErrorMsg name argList) = playbackErrorMsg name argList /\
   (argList = [] ->
    c_str (playbackErrorMsg name argList) = "wanted to call " +:+ (name +:+ "()")) /\
   (forall front arg, argList = front ++ [arg] ->
      c_str (playbackErrorMsg name argList)
      = "wanted to call " +:+ (name +:+ ("(" +:+ (commaSeparated front
          +:+ (arg +:+ ", )"))))) /\
   String.length (c_str (playbackErrorMsg name argList))
   = (17 + String.length name + argumentsLength argList)%nat).
Proof.
  assert (Hlen : String.length (playbackErrorMsg name argList)
                 = (17 + String.length name + argumentsLength argList)%nat).
  { rewrite playbackErrorMsg_eq, !length_append, commaSeparated_length.
    simpl. lia. }
  split; [rewrite <- Hlen; apply length_c_str |].
  intros Hname Hargs.
  assert (Hsame : c_str (playbackErrorMsg name argList)
                  = playbackErrorMsg name argList).
  { apply c_str_noNUL. rewrite playbackErrorMsg_eq.
    rewrite !noNUL_append, Hname, (noNUL_commaSeparated _ Hargs). reflexivity. }
  rewrite Hsame. split; [done |]. split; [| split; [| done]].
  - intros ->. by rewrite playbackErrorMsg_eq.
  - intros front arg ->. rewrite playbackErrorMsg_eq, commaSeparated_snoc.
    by rewrite !append_assoc.
Qed.

(** ** Replaying a recorded session *)

Section SessionFacts.

Context {Pos : Type}.
Variable parameterValue : ValuePtr -> Eval string.

(** What the session relies on: a property [Inv] of the state under which
    every argument cell in [isArg] stringifies to a text [str] that does
    not change, the stringifier keeping [Inv] and the table; and writes to
    the table keep [Inv]. *)
Variable str : ValuePtr -> string.
Variable Inv : EvalState -> Prop.
Variable isArg : ValuePtr -> Prop.

Hypothesis stringify_stable :
  forall p st, Inv st -> isArg p ->
    exists st', parameterValue p st = (Ok (str p), st') /\
                Inv st' /\ recording st' = recording st.

Hypothesis write_keeps_Inv :
  forall st k v, Inv st -> Inv (setRecording (insert k v) st).

Lemma stringifyEach_stable (ps : list ValuePtr) st :
  Forall isArg ps -> Inv st ->
  exists st', stringifyEach parameterValue ps st = (Ok (str <$> ps), st') /\
              Inv st' /\ recording st' = recording st.
Proof.
  intros Hps. revert st. induction Hps as [|p ps Hp Hps IH]; intros st Hst.
  - by exists st.
  - destruct (stringify_stable p st Hst Hp) as (st1 & Hrun & Hst1 & Htab1).
    destruct (IH st1 Hst1) as (st2 & Hrest & Hst2 & Htab2).
    exists st2. split; [| split; [done | congruence]].
    simpl. rewrite (bind_Ok _ _ _ _ _ Hrun). by rewrite (bind_Ok _ _ _ _ _ Hrest).
Qed.

Lemma collectArgList_stable arity (useArgument : UsedArguments)
    (args : nat -> ValuePtr) st :
  (forall i, (i < arity)%nat -> useArgument i = true -> isArg (args i)) ->
  Inv st ->
  exists st',
    collectArgList parameterValue arity useArgument args st
      = (Ok (str <$> (args <$> List.filter useArgument (seq 0 arity))), st') /\
    Inv st' /\ recording st' = recording st.
Proof.
  intros Hargs Hst. rewrite collectArgList_stringifyEach.
  apply stringifyEach_stable; [| done].
  apply Forall_fmap, Forall_forall. intros i Hi.
  apply list_elem_of_In, List.filter_In in Hi as [Hi Hmask].
  apply list_elem_of_In, elem_of_seq in Hi. apply Hargs; [lia | done].
Qed.

(** X9.  A recorded session can be replayed.  Take a session of calls
    made through the Record wrapper that ran to its end, from a state in
    which [Inv] holds, where each call has its masked arguments in
    [isArg] and an implementation that, when it returns, keeps [Inv] and
    removes no key from the table.  Then in the final state every call of
    the session, made through the Playback wrapper at any position and
    around any implementation, finds an entry: it returns a value, never
    the miss error, and leaves the table as it is. *)
Theorem recorded_session_replays
    (calls : list (Call (Pos := Pos))) st vs final :
  Inv st ->
  Forall (fun c =>
    (forall i, (i < callArity c)%nat -> callMask c i = true ->
       isArg (callArgs c i)) /\
    (forall s v s', Inv s ->
       callPrimOp c (callPos c) (callArgs c) s = (Ok v, s') ->
       Inv s' /\
       forall k, is_Some (recording s !! k) -> is_Some (recording s' !! k)))
    calls ->
  recordAll parameterValue calls st = (Ok vs, final) ->
  Inv final /\
  (forall k, is_Some (recording st !! k) -> is_Some (recording final !! k)) /\
  forall c, c ∈ calls ->
    forall (pos : Pos) (anyPrimOp : PrimOpFun (Pos := Pos)),
    exists v st',
      playbackPrimOp parameterValue (callName c) (callArity c) anyPrimOp
        (callMask c) pos (callArgs c) final = (Ok v, st') /\
      recording st' = recording final.
Proof.
  intros Hst Hcalls. revert st vs final Hst.
  induction Hcalls as [|c calls [Hargs Himpl] Hcalls IH];
    intros st vs final Hst Hrun.
  - simpl in Hrun. injection Hrun as <- <-.
    split; [done |]. split; [done |]. intros c Hc. by apply elem_of_nil in Hc.
  - simpl in Hrun.
    destruct (collectArgList_stable _ _ _ st Hargs Hst)
      as (st1 & Hkey & Hst1 & Htab1).
    unfold mbind at 1, Eval_bind at 1 in Hrun.
    rewrite (recordPrimOp_unfold _ _ _ _ _ _ _ _ _ _ Hkey) in Hrun.
    destruct (callPrimOp c (callPos c) (callArgs c) st1) as [[v | e] st2] eqn:Hcall;
      [| discriminate Hrun].
    destruct (Himpl st1 v st2 Hst1 Hcall) as [Hst2 Hkeep].
    set (key := (callName c,
                 str <$> (callArgs c <$> List.filter (callMask c)
                                           (seq 0 (callArity c))))) in *.
    set (st3 := setRecording (insert key v) st2) in *.
    unfold mbind, Eval_bind in Hrun.
    destruct (recordAll parameterValue calls st3) as [[vs' | e] final'] eqn:Hrest;
      [| discriminate Hrun].
    injection Hrun as <- <-.
    assert (Hst3 : Inv st3) by (by apply write_keeps_Inv).
    destruct (IH st3 vs' final' Hst3 Hrest) as (Hfinal & Hgrow & Hreplay).
    split; [done |]. split.
    + intros k Hk. apply Hgrow. unfold st3. simpl.
      destruct (decide (key = k)) as [<- | Hne].
      * rewrite lookup_insert_eq. by eexists.
      * rewrite lookup_insert_ne by done. apply Hkeep. by rewrite Htab1.
    + intros c' Hc' pos anyPrimOp.
      apply elem_of_cons in Hc' as [-> | Hc']; [| by apply Hreplay].
      destruct (collectArgList_stable _ _ _ final' Hargs Hfinal)
        as (st' & Hkey' & _ & Htab').
      assert (Hin : is_Some (recording final' !! key)).
      { apply Hgrow. unfold st3. simpl. rewrite lookup_insert_eq. by eexists. }
      destruct Hin as [stored Hstored].
      exists stored, st'. split; [| done].
      rewrite (playbackPrimOp_unfold _ _ _ _ _ _ _ _ _ _ Hkey').
      fold key. by rewrite Htab', Hstored.
Qed.

End SessionFacts.

(** ** The further properties at work on the fixtures *)

(** X1 on the fixture: [tick] is recorded under (getEnv, [HOME]) and the
    replay, around an implementation that would fail, returns the
    recorded 0. *)
Lemma record_then_playback_witness :
  (Fixture.recordTick "p" Fixture.argsA
   ≫= fun _ =>
     playbackPrimOp Fixture.parameterValue "getEnv" 2 Fixture.tickThenFail
       (onlyPos 0) "q" Fixture.argsB) (Fixture.state0 Record_)
  = (Ok (tInt 0), Fixture.afterFirst).
Proof.
  apply (record_then_playback Fixture.parameterValue "getEnv" 2 Fixture.tick
    Fixture.tickThenFail (onlyPos 0) "p" Fixture.argsA "q" Fixture.argsB
    (Fixture.state0 Record_) ["HOME"] (Fixture.state0 Record_) (tInt 0)
    (Fixture.ticked Record_) Fixture.afterFirst);
    vm_compute; reflexivity.
Defined.

(** X2 on the fixture: the recorded call leaves the cells as [tick] left
    them. *)
Lemma recordPrimOp_writes_one_entry_witness :
  exists final,
    Fixture.recordTick "p" Fixture.argsA (Fixture.state0 Record_)
      = (Ok (tInt 0), final) /\
    cells final = cells (Fixture.ticked Record_).
Proof.
  destruct (recordPrimOp_writes_one_entry Fixture.parameterValue "getEnv" 2
    Fixture.tick (onlyPos 0) "p" Fixture.argsA (Fixture.state0 Record_)
    ["HOME"] (Fixture.state0 Record_) (tInt 0) (Fixture.ticked Record_))
    as (final & Hrun & _ & _ & _ & Hcells & _);
    [vm_compute; reflexivity | vm_compute; reflexivity |].
  exists final. split; [exact Hrun | exact Hcells].
Defined.

(** X3 on the fixture: a miss in Playback mode leaves the table as it
    was. *)
Lemma playbackPrimOp_preserves_witness :
  recording
    (playbackPrimOp Fixture.parameterValue "readFile" 2 Fixture.tick constTrue
       "p" Fixture.argsA Fixture.replayState).2
  = recording Fixture.replayState.
Proof.
  apply (playbackPrimOp_preserves Fixture.parameterValue
    (fun s => recording s = recording Fixture.replayState)
    "readFile" 2 Fixture.tick constTrue "p" Fixture.argsA Fixture.replayState).
  - intros p s Hs. unfold Fixture.parameterValue.
    destruct (cells s !! p) as [[] |]; exact Hs.
  - reflexivity.
Defined.

(** X4 on the fixture: the second of three masked arguments is the cell
    of the counter, which does not stringify. *)
Lemma wrappers_stop_at_first_failing_argument_witness :
  recordPrimOp Fixture.parameterValue "readFile" 3 Fixture.tick constTrue
    "p" SessionFixture.argsBad (Fixture.state0 Record_)
  = (Throw (EvalError "cannot stringify"), Fixture.state0 Record_).
Proof.
  apply (wrappers_stop_at_first_failing_argument Fixture.parameterValue
    "readFile" 3 Fixture.tick constTrue "p" SessionFixture.argsBad
    (Fixture.state0 Record_) [1%positive] Fixture.counter [2%positive]
    ["HOME"] (Fixture.state0 Record_) (EvalError "cannot stringify")
    (Fixture.state0 Record_)); vm_compute; reflexivity.
Defined.

(** X5 on the fixture: keyed by the second argument only. *)
Lemma onlyPos_key_is_one_argument_witness :
  collectArgList Fixture.parameterValue 2 (onlyPos 1) Fixture.argsA
    (Fixture.state0 Record_)
  = (Ok ["a"], Fixture.state0 Record_).
Proof.
  rewrite (onlyPos_key_is_one_argument Fixture.parameterValue 1 2
    Fixture.argsA (Fixture.state0 Record_)); [reflexivity | lia |].
  change (2 ^ 32) with 4294967296. lia.
Defined.

(** X6 on the fixture: the mask for position -1 of a binary operation. *)
Lemma onlyPos_out_of_range_key_is_empty_witness :
  collectArgList Fixture.parameterValue 2 (onlyPos (-1)) Fixture.argsA
    (Fixture.state0 Record_)
  = (Ok [], Fixture.state0 Record_).
Proof.
  apply (onlyPos_out_of_range_key_is_empty Fixture.parameterValue (-1)
    "getEnv" 2 Fixture.tick "p" Fixture.argsA (Fixture.state0 Record_)).
  right. change (2 ^ 31) with 2147483648. lia.
Defined.

(** X7 on the fixture: both arguments of a binary operation are in the
    key under [constTrue]. *)
Lemma key_length_witness :
  collectArgList Fixture.parameterValue 2 constTrue Fixture.argsA
    (Fixture.state0 Record_) = (Ok ["HOME"; "a"], Fixture.state0 Record_) /\
  length ["HOME"; "a"] = 2%nat.
Proof.
  assert (Hkey : collectArgList Fixture.parameterValue 2 constTrue Fixture.argsA
                   (Fixture.state0 Record_)
                 = (Ok ["HOME"; "a"], Fixture.state0 Record_))
    by (vm_compute; reflexivity).
  split; [exact Hkey |].
  apply (key_length Fixture.parameterValue 2 constTrue Fixture.argsA
    (Fixture.state0 Record_) ["HOME"; "a"] (Fixture.state0 Record_) Hkey).
  reflexivity.
Defined.

(** X8 on the fixture: in Playback mode the dispatch functions for
    [tick] and for [tickThenFail] agree. *)
Lemma playback_mode_dispatch_ignores_implementation_witness :
  playbackPrimOp Fixture.parameterValue "getEnv" 2 Fixture.tick (onlyPos 0)
    "p" Fixture.argsA Fixture.replayState
  = playbackPrimOp Fixture.parameterValue "getEnv" 2 Fixture.tickThenFail
      (onlyPos 0) "p" Fixture.argsA Fixture.replayState.
Proof.
  apply (playback_mode_dispatch_ignores_implementation Fixture.parameterValue
    Fixture.replayState "getEnv" 2 Fixture.tick Fixture.tickThenFail
    (onlyPos 0) _ _ "p" Fixture.argsA Fixture.replayState); reflexivity.
Defined.

(** X9 on the fixture: after the session of three calls, the call of
    readFile is replayed around an implementation that would fail. *)
Lemma recorded_session_replays_witness :
  exists v st',
    playbackPrimOp Fixture.parameterValue "readFile" 2 Fixture.tickThenFail
      constTrue "z" Fixture.argsB
      (recordAll Fixture.parameterValue SessionFixture.session
         (Fixture.state0 Record_)).2
    = (Ok v, st').
Proof.
  destruct (recorded_session_replays (Pos := string) Fixture.parameterValue SessionFixture.str
    SessionFixture.argumentsIntact SessionFixture.isArgument) with
    (calls := SessionFixture.session) (st := Fixture.state0 Record_)
    (vs := [tInt 0; tInt 1; tInt 2])
    (final := (recordAll Fixture.parameterValue SessionFixture.session
                 (Fixture.state0 Record_)).2)
    as (_ & _ & Hreplay).
  - intros p st Hst Hp. exists st. unfold Fixture.parameterValue.
    rewrite (Hst p Hp). done.
  - intros st k v Hst. exact Hst.
  - intros p [-> | [-> | ->]]; reflexivity.
  - assert (Hargs : forall (args : nat -> ValuePtr),
              (args = Fixture.argsA \/ args = Fixture.argsB) ->
              forall i, SessionFixture.isArgument (args i)).
    { intros args [-> | ->] [|i]; unfold SessionFixture.isArgument; simpl; auto. }
    assert (Htick : forall pos args s v s',
              SessionFixture.argumentsIntact s ->
              Fixture.tick pos args s = (Ok v, s') ->
              SessionFixture.argumentsIntact s' /\
              forall k, is_Some (recording s !! k) -> is_Some (recording s' !! k)).
    { intros pos args s v s' Hs. unfold Fixture.tick.
      assert (Hset : forall n, SessionFixture.argumentsIntact
                                 (setCell Fixture.counter n s)).
      { intros n p Hp. simpl. rewrite lookup_insert_ne; [by apply Hs |].
        destruct Hp as [-> | [-> | ->]]; discriminate. }
      destruct (cells s !! Fixture.counter) as [[] |];
        intros [= <- <-]; (split; [apply Hset | done]). }
    unfold SessionFixture.session.
    do 3 (constructor;
          [split; [intros i _ _; apply Hargs; auto
                  | intros s v s' Hs Hrun; exact (Htick _ _ s v s' Hs Hrun)] |]).
    constructor.
  - vm_compute; reflexivity.
  - destruct (Hreplay (mkCall "readFile" 2 Fixture.tick constTrue "q" Fixture.argsB))
      with (pos := "z") (anyPrimOp := Fixture.tickThenFail)
      as (v & st' & Hrun & _).
    { unfold SessionFixture.session. apply elem_of_cons. right.
      apply elem_of_cons. by left. }
    exists v, st'. exact Hrun.
Defined.

(** X10 on the fixture. *)
Lemma playbackErrorMsg_shape_witness :
  c_str (playbackErrorMsg "getEnv" ["HOME"; "x"])
    = "wanted to call getEnv(HOME, x, )" /\
  String.length (c_str (playbackErrorMsg "getEnv" ["HOME"; "x"])) = 32%nat.
Proof.
  destruct (playbackErrorMsg_shape "getEnv" ["HOME"; "x"])
    as (_ & Hshape).
  destruct Hshape as (_ & _ & Hlast & Hlen);
    [reflexivity | repeat constructor |].
  split.
  - exact (Hlast ["HOME"] "x" eq_refl).
  - exact Hlen.
Defined.

(** X11 on the fixture: the recorded call of [tick] returns what [tick]
    returns. *)
Lemma recordPrimOp_transparent_witness :
  (Fixture.recordTick "p" Fixture.argsA (Fixture.state0 Record_)).1
  = (Fixture.tick "p" Fixture.argsA (Fixture.state0 Record_)).1.
Proof.
  apply (recordPrimOp_transparent Fixture.parameterValue "getEnv" 2 Fixture.tick
    (onlyPos 0) "p" Fixture.argsA (Fixture.state0 Record_) ["HOME"]).
  vm_compute; reflexivity.
Defined.
